(** * The Editor.js underline inline tool (src/index.ts)

    The tool toggles a [<u class="cdx-underline">] wrapper around the
    selected text.  Its methods are a few lines each; what they do is
    decided by the document tree, the live ranges and the selection they
    call into.  The development therefore has three layers:

    - [Dom]: the document tree, boundary points and ranges, and what
      extracting and inserting do to a tree;
    - [Host]: the page the tool runs in: the live ranges and the selection
      with their methods ([extractContents], [insertNode], [getRangeAt],
      ...), the two Editor.js selection capabilities ([findParentTag],
      [expandToTag]) and the sanitizer;
    - [Underline]: the tool itself, method by method.

    Methods are written in a state-and-exception monad over [world]. *)

From Stdlib Require Import Ascii String Lia.
From stdpp Require Import base list strings gmap.


(** ** Strings as sequences of code units *)

Module Str.

Fixpoint stake (n : nat) (s : string) : string :=
  match n, s with
  | S n', String c s' => String c (stake n' s')
  | _, _ => ""
  end.

Fixpoint sdrop (n : nat) (s : string) : string :=
  match n, s with
  | S n', String _ s' => sdrop n' s'
  | _, _ => s
  end.

(** [substringData offset count] of the DOM's CharacterData. *)
Definition substringData (off cnt : nat) (s : string) : string :=
  stake cnt (sdrop off s).

Definition upper_char (c : ascii) : ascii :=
  let n := Ascii.nat_of_ascii c in
  if (97 <=? n) && (n <=? 122) then Ascii.ascii_of_nat (n - 32) else c.

Definition lower_char (c : ascii) : ascii :=
  let n := Ascii.nat_of_ascii c in
  if (65 <=? n) && (n <=? 90) then Ascii.ascii_of_nat (n + 32) else c.

Fixpoint smap (f : ascii → ascii) (s : string) : string :=
  match s with
  | "" => ""
  | String c s' => String (f c) (smap f s')
  end.

Definition toUpperCase : string → string := smap upper_char.
Definition toLowerCase : string → string := smap lower_char.

End Str.

(** ** The document tree

    Modelled from the spec: the host's document tree and its "standard
    document-range operations" (spec section 6) are not part of the
    repository.  They follow the DOM Standard, restricted to the two node
    kinds inline content is made of: text nodes and elements. *)

Module Dom.

Local Unset Elimination Schemes.

(** An element carries its local name (lower case in an HTML document), the
    tokens of its [class] attribute, its other attributes, and its children. *)
Inductive node : Type :=
| Text (data : string)
| Elem (tag : string) (classes : list string)
       (attrs : list (string * string)) (kids : list node).

Local Set Elimination Schemes.

(** A DocumentFragment is the list of its children; what [insertNode] and
    [appendChild] receive is a single node or a fragment. *)
Definition fragment := list node.

Inductive content : Type :=
| OneNode (n : node)
| Fragment (f : fragment).

Definition content_nodes (c : content) : list node :=
  match c with
  | OneNode n => [n]
  | Fragment f => f
  end.

(** [Element.tagName]: the local name in upper case. *)
Definition tagName (n : node) : option string :=
  match n with
  | Text _ => None
  | Elem t _ _ _ => Some (Str.toUpperCase t)
  end.

Definition is_elem (n : node) : bool :=
  match n with Text _ => false | Elem _ _ _ _ => true end.

Definition children (n : node) : list node :=
  match n with Text _ => [] | Elem _ _ _ ks => ks end.


(** A node's length: code units of a text node, children of an element. *)
Definition node_length (n : node) : nat :=
  match n with
  | Text d => String.length d
  | Elem _ _ _ ks => length ks
  end.

(** [document.createElement(name)] in an HTML document. *)
Definition new_element (name : string) : node :=
  Elem (Str.toLowerCase name) [] [] [].

Definition classList_contains (c : string) (cs : list string) : bool :=
  bool_decide (c ∈ cs).

Definition classList_add (c : string) (cs : list string) : list string :=
  if classList_contains c cs then cs else cs ++ [c].

Definition classList_remove (c : string) (cs : list string) : list string :=
  filter (λ x, x ≠ c) cs.

(** [classList.toggle(token, force)]: with [force] given, the token is
    added when it is true and removed when it is false. *)
Definition classList_toggle (c : string) (force : bool) (cs : list string)
  : list string :=
  if force then classList_add c cs else classList_remove c cs.

Definition elem_classList_add (c : string) (n : node) : node :=
  match n with
  | Text d => Text d
  | Elem t cs a ks => Elem t (classList_add c cs) a ks
  end.

(** Appending a fragment to a node: the fragment's children become the last
    children of the node. *)
Definition append_kids (n : node) (f : fragment) : node :=
  match n with
  | Text d => Text d
  | Elem t cs a ks => Elem t cs a (ks ++ f)
  end.

(** [Node.textContent]: the text of the descendants, in tree order. *)
Fixpoint textContent (n : node) : string :=
  match n with
  | Text d => d
  | Elem _ _ _ ks =>
      (fix go (l : list node) : string :=
         match l with
         | [] => ""
         | k :: l' => textContent k +:+ go l'
         end) ks
  end.

Definition texts (ks : list node) : string :=
  foldr (λ k acc, textContent k +:+ acc) "" ks.

Global Arguments textContent : simpl never.
Global Arguments texts : simpl never.

(** *** Paths and boundary points

    A node of the document is named by the child indices leading to it from
    the root.  A boundary point is a node and an offset into it. *)
Definition path := list nat.

Fixpoint get_node (p : path) (n : node) : option node :=
  match p with
  | [] => Some n
  | i :: p' =>
      match n with
      | Text _ => None
      | Elem _ _ _ ks =>
          match ks !! i with
          | Some k => get_node p' k
          | None => None
          end
      end
  end.

(** Replace the subtree at a path. *)
Fixpoint set_node (p : path) (m : node) (n : node) : node :=
  match p with
  | [] => m
  | i :: p' =>
      match n with
      | Text d => Text d
      | Elem t c a ks => Elem t c a (alter (set_node p' m) i ks)
      end
  end.

Record bp : Type := Bp { bnode : path; boff : nat }.

Record range : Type := Range { rstart : bp; rend : bp }.

Global Instance bp_eq_dec : EqDecision bp.
Proof. solve_decision. Defined.

Global Instance range_eq_dec : EqDecision range.
Proof. solve_decision. Defined.

Definition collapsed (r : range) : bool :=
  bool_decide (rstart r = rend r).

(** A boundary point is valid when its node exists and the offset does not
    exceed the node's length. *)
Definition valid_bp (doc : node) (b : bp) : bool :=
  match get_node (bnode b) doc with
  | Some n => bool_decide (boff b ≤ node_length n)
  | None => false
  end.

(** Tree order of boundary points: the sequences [path ++ [offset]] compared
    lexicographically, a proper prefix coming first. *)
Fixpoint seq_le (s e : list nat) : bool :=
  match s, e with
  | [], _ => true
  | _ :: _, [] => false
  | x :: s', y :: e' =>
      if decide (x = y) then seq_le s' e' else bool_decide (x < y)
  end.

Definition bp_le (s e : bp) : bool :=
  seq_le (bnode s ++ [boff s]) (bnode e ++ [boff e]).

Definition valid_range (doc : node) (r : range) : bool :=
  valid_bp doc (rstart r) && valid_bp doc (rend r) && bp_le (rstart r) (rend r).

(** Longest common prefix of two paths, and what remains of each. *)
Fixpoint common_prefix (p q : path) : path * path * path :=
  match p, q with
  | i :: p', j :: q' =>
      if decide (i = j)
      then let '(c, rp, rq) := common_prefix p' q' in (i :: c, rp, rq)
      else ([], p, q)
  | _, _ => ([], p, q)
  end.

(** [split_last p] is the parent's path and the child index of [p]. *)
Fixpoint split_last (p : path) : option (path * nat) :=
  match p with
  | [] => None
  | [i] => Some ([], i)
  | i :: p' =>
      match split_last p' with
      | Some (pp, j) => Some (i :: pp, j)
      | None => None
      end
  end.

(** *** Extracting a range (DOM Standard, "extract")

    [cut_right rel so n] handles a first partially contained node [n]: the
    boundary point [(rel, so)] lies inside [n], and everything of [n] after
    it is extracted into a clone of [n].  The result is what is left of [n]
    and the clone.  [cut_left] is the mirror image, for a last partially
    contained node. *)
Fixpoint cut_right (rel : path) (so : nat) (n : node) : node * node :=
  match n with
  | Text d => (Text (Str.stake so d), Text (Str.sdrop so d))
  | Elem t c a ks =>
      match rel with
      | [] => (Elem t c a (take so ks), Elem t c a (drop so ks))
      | i :: rel' =>
          match ks !! i with
          | Some k =>
              let '(k1, k2) := cut_right rel' so k in
              (Elem t c a (take i ks ++ [k1]),
               Elem t c a (k2 :: drop (S i) ks))
          | None => (n, Elem t c a [])
          end
      end
  end.

Fixpoint cut_left (rel : path) (eo : nat) (n : node) : node * node :=
  match n with
  | Text d => (Text (Str.sdrop eo d), Text (Str.stake eo d))
  | Elem t c a ks =>
      match rel with
      | [] => (Elem t c a (drop eo ks), Elem t c a (take eo ks))
      | j :: rel' =>
          match ks !! j with
          | Some k =>
              let '(k1, k2) := cut_left rel' eo k in
              (Elem t c a (k1 :: drop (S j) ks),
               Elem t c a (take j ks ++ [k2]))
          | None => (Elem t c a [], n)
          end
      end
  end.

(** Extraction below the common ancestor [n] of the two boundary points,
    given relative to [n]: the remaining node and the extracted fragment. *)
Definition extract_at (rs : path) (so : nat) (re : path) (eo : nat)
    (n : node) : node * fragment :=
  match n with
  | Text d =>
      (Text (Str.stake so d +:+ Str.sdrop eo d),
       [Text (Str.substringData so (eo - so) d)])
  | Elem t c a ks =>
      match rs, re with
      | [], [] =>
          (Elem t c a (take so ks ++ drop eo ks), take (eo - so) (drop so ks))
      | i :: rs', [] =>
          match ks !! i with
          | Some k =>
              let '(k1, k2) := cut_right rs' so k in
              (Elem t c a (take i ks ++ [k1] ++ drop eo ks),
               k2 :: take (eo - S i) (drop (S i) ks))
          | None => (n, [])
          end
      | [], j :: re' =>
          match ks !! j with
          | Some k =>
              let '(k1, k2) := cut_left re' eo k in
              (Elem t c a (take so ks ++ [k1] ++ drop (S j) ks),
               take (j - so) (drop so ks) ++ [k2])
          | None => (n, [])
          end
      | i :: rs', j :: re' =>
          match ks !! i, ks !! j with
          | Some ki, Some kj =>
              let '(f1, f2) := cut_right rs' so ki in
              let '(l1, l2) := cut_left re' eo kj in
              (Elem t c a (take i ks ++ [f1; l1] ++ drop (S j) ks),
               f2 :: take (j - S i) (drop (S i) ks) ++ [l2])
          | _, _ => (n, [])
          end
      end
  end.

(** Where the range collapses to after the extraction, relative to the
    common ancestor: the start itself when the start node is the common
    ancestor, otherwise just after the first partially contained child. *)
Definition collapse_point (rs : path) (so : nat) : bp :=
  match rs with
  | [] => Bp [] so
  | i :: _ => Bp [] (S i)
  end.

Definition rebase (c : path) (b : bp) : bp := Bp (c ++ bnode b) (boff b).

(** The whole extraction on a document: the new document, the fragment and
    the point the range collapses to.  A collapsed range extracts nothing. *)
Definition extract (doc : node) (r : range) : option (node * fragment * bp) :=
  if collapsed r then Some (doc, [], rstart r) else
  let '(c, rs, re) := common_prefix (bnode (rstart r)) (bnode (rend r)) in
  match get_node c doc with
  | Some n =>
      let '(n', f) := extract_at rs (boff (rstart r)) re (boff (rend r)) n in
      Some (set_node c n' doc, f, rebase c (collapse_point rs (boff (rstart r))))
  | None => None
  end.


(** *** Editing the children of a node *)
Definition upd_node (p : path) (f : node → node) (doc : node) : node :=
  match get_node p doc with
  | Some m => set_node p (f m) doc
  | None => doc
  end.

Definition insert_kids (i : nat) (ns : list node) (n : node) : node :=
  match n with
  | Text d => Text d
  | Elem t c a ks => Elem t c a (take i ks ++ ns ++ drop i ks)
  end.

Definition remove_kid (i : nat) (n : node) : node :=
  match n with
  | Text d => Text d
  | Elem t c a ks => Elem t c a (delete i ks)
  end.

(** [Text.splitText(off)] on child [i]: the child keeps the data before
    [off], a new text node with the rest becomes its next sibling. *)
Definition split_kid (i off : nat) (n : node) : node :=
  match n with
  | Text d => Text d
  | Elem t c a ks =>
      match ks !! i with
      | Some (Text d) =>
          Elem t c a (take i ks ++
                      [Text (Str.stake off d); Text (Str.sdrop off d)] ++
                      drop (S i) ks)
      | _ => n
      end
  end.

(** *** Live ranges

    Every mutation of the tree moves the boundary points of the live ranges
    (DOM Standard, "replace data", "remove", "insert", "split a Text node").
    Since nodes are named by paths, the paths through a shifted child are
    renumbered as well. *)
Fixpoint strip_prefix (pp q : path) : option path :=
  match pp, q with
  | [], _ => Some q
  | i :: pp', j :: q' => if decide (i = j) then strip_prefix pp' q' else None
  | _ :: _, [] => None
  end.

(** Child [i] of the node at [pp] is removed. *)
Definition adj_remove (pp : path) (i : nat) (b : bp) : bp :=
  match strip_prefix pp (bnode b) with
  | Some [] => if decide (i < boff b) then Bp (bnode b) (boff b - 1) else b
  | Some (j :: rest) =>
      if decide (j = i) then Bp pp i
      else if decide (i < j) then Bp (pp ++ (j - 1) :: rest) (boff b)
      else b
  | None => b
  end.

(** [k] nodes are inserted before child [i] of the node at [pp]. *)
Definition adj_insert (pp : path) (i k : nat) (b : bp) : bp :=
  match strip_prefix pp (bnode b) with
  | Some [] => if decide (i < boff b) then Bp (bnode b) (boff b + k) else b
  | Some (j :: rest) =>
      if decide (i ≤ j) then Bp (pp ++ (j + k) :: rest) (boff b) else b
  | None => b
  end.

(** [cnt] code units at [off] of the text node at [p] are replaced by [len]
    code units. *)
Definition adj_data (p : path) (off cnt len : nat) (b : bp) : bp :=
  if decide (bnode b = p) then
    if decide (boff b ≤ off) then b
    else if decide (boff b ≤ off + cnt) then Bp p off
    else Bp p (boff b + len - cnt)
  else b.

(** Child [i] of the node at [pp], a text node, is split at [off]. *)
Definition adj_split (pp : path) (i off : nat) (b : bp) : bp :=
  match strip_prefix pp (bnode b) with
  | Some [] => if decide (i < boff b) then Bp (bnode b) (boff b + 1) else b
  | Some (j :: rest) =>
      if decide (j = i) then
        if decide (off < boff b) then Bp (pp ++ [S i]) (boff b - off) else b
      else if decide (i < j) then Bp (pp ++ S j :: rest) (boff b)
      else b
  | None => b
  end.

Definition adj_range (f : bp → bp) (r : range) : range :=
  Range (f (rstart r)) (f (rend r)).

(** The moves an extraction causes, in the order the extraction removes
    things: inside the first partially contained child, then the contained
    children one by one, then inside the last partially contained child. *)
Fixpoint adj_cut_right (base rel : path) (so : nat) (n : node) (b : bp) : bp :=
  match n with
  | Text d => adj_data base so (String.length d - so) 0 b
  | Elem _ _ _ ks =>
      match rel with
      | [] => Nat.iter (length ks - so) (adj_remove base so) b
      | i :: rel' =>
          match ks !! i with
          | Some k =>
              Nat.iter (length ks - S i) (adj_remove base (S i))
                (adj_cut_right (base ++ [i]) rel' so k b)
          | None => b
          end
      end
  end.

Fixpoint adj_cut_left (base rel : path) (eo : nat) (n : node) (b : bp) : bp :=
  match n with
  | Text d => adj_data base 0 eo 0 b
  | Elem _ _ _ ks =>
      match rel with
      | [] => Nat.iter eo (adj_remove base 0) b
      | j :: rel' =>
          match ks !! j with
          | Some k =>
              adj_cut_left (base ++ [0]) rel' eo k
                (Nat.iter j (adj_remove base 0) b)
          | None => b
          end
      end
  end.

Definition adj_extract_at (c rs : path) (so : nat) (re : path) (eo : nat)
    (n : node) (b : bp) : bp :=
  match n with
  | Text d => adj_data c so (eo - so) 0 b
  | Elem _ _ _ ks =>
      match rs, re with
      | [], [] => Nat.iter (eo - so) (adj_remove c so) b
      | i :: rs', [] =>
          match ks !! i with
          | Some k =>
              Nat.iter (eo - S i) (adj_remove c (S i))
                (adj_cut_right (c ++ [i]) rs' so k b)
          | None => b
          end
      | [], j :: re' =>
          match ks !! j with
          | Some k =>
              adj_cut_left (c ++ [so]) re' eo k
                (Nat.iter (j - so) (adj_remove c so) b)
          | None => b
          end
      | i :: rs', j :: re' =>
          match ks !! i, ks !! j with
          | Some ki, Some kj =>
              adj_cut_left (c ++ [S i]) re' eo kj
                (Nat.iter (j - S i) (adj_remove c (S i))
                   (adj_cut_right (c ++ [i]) rs' so ki b))
          | _, _ => b
          end
      end
  end.

Definition adj_extract (doc : node) (r : range) (b : bp) : bp :=
  if collapsed r then b else
  let '(c, rs, re) := common_prefix (bnode (rstart r)) (bnode (rend r)) in
  match get_node c doc with
  | Some n => adj_extract_at c rs (boff (rstart r)) re (boff (rend r)) n b
  | None => b
  end.

(** *** What a range selects

    [Range.toString()]: the text between the boundary points, which is the
    text of what an extraction would take out. *)
Definition range_text (doc : node) (r : range) : string :=
  match extract doc r with
  | Some (_, f, _) => texts f
  | None => ""
  end.

(** The text of the document before and after a boundary point. *)
Fixpoint text_before (p : path) (o : nat) (n : node) : string :=
  match n with
  | Text d => Str.stake o d
  | Elem _ _ _ ks =>
      match p with
      | [] => texts (take o ks)
      | i :: p' =>
          match ks !! i with
          | Some k => texts (take i ks) +:+ text_before p' o k
          | None => texts ks
          end
      end
  end.

Fixpoint text_after (p : path) (o : nat) (n : node) : string :=
  match n with
  | Text d => Str.sdrop o d
  | Elem _ _ _ ks =>
      match p with
      | [] => texts (drop o ks)
      | i :: p' =>
          match ks !! i with
          | Some k => text_after p' o k +:+ texts (drop (S i) ks)
          | None => ""
          end
      end
  end.

(** The text of the document before the node at a path begins, and after it
    ends. *)
Fixpoint left_of (p : path) (n : node) : string :=
  match p with
  | [] => ""
  | i :: p' =>
      match children n !! i with
      | Some k => texts (take i (children n)) +:+ left_of p' k
      | None => ""
      end
  end.

Fixpoint right_of (p : path) (n : node) : string :=
  match p with
  | [] => ""
  | i :: p' =>
      match children n !! i with
      | Some k => right_of p' k +:+ texts (drop (S i) (children n))
      | None => ""
      end
  end.

(** What identifies an element to [findParentTag]: its name and classes. *)
Definition label (n : node) : option (string * list string) :=
  match n with
  | Text _ => None
  | Elem t c _ _ => Some (t, c)
  end.

(** The boundary points of a valid range, taken relative to their common
    ancestor: both valid, and in tree order. *)
Definition heads_differ (rp rq : path) : Prop :=
  match rp, rq with
  | i :: _, j :: _ => i ≠ j
  | _, _ => True
  end.

Definition rel_order (rs : path) (so : nat) (re : path) (eo : nat) : Prop :=
  match rs, re with
  | [], [] => so ≤ eo
  | i :: _, [] => i < eo
  | [], j :: _ => so ≤ j
  | i :: _, j :: _ => i < j
  end.

Definition rel_ok (rs : path) (so : nat) (re : path) (eo : nat) (n : node)
  : Prop :=
  valid_bp n (Bp rs so) = true ∧ valid_bp n (Bp re eo) = true ∧
  rel_order rs so re eo.

(** The document after [insertNode]: the nodes [ns] are inserted at the
    boundary point [b], a text node there being split first.  The result
    names the parent and the index of the first inserted node. *)
Definition insert_at (b : bp) (ns : list node) (doc : node)
  : option (node * path * nat) :=
  match get_node (bnode b) doc with
  | Some (Text _) =>
      match split_last (bnode b) with
      | Some (pp, i) =>
          Some (upd_node pp (insert_kids (S i) ns)
                  (upd_node pp (split_kid i (boff b)) doc), pp, S i)
      | None => None
      end
  | Some (Elem _ _ _ _) =>
      Some (upd_node (bnode b) (insert_kids (boff b) ns) doc, bnode b, boff b)
  | None => None
  end.

(** Two paths diverge when neither leads through the other: they part at
    some child index. *)
Fixpoint diverge (p q : path) : bool :=
  match p, q with
  | i :: p', j :: q' => if decide (i = j) then diverge p' q' else true
  | _, _ => false
  end.

(** *** Serialisation ([Element.outerHTML]), for elements without
    attributes other than [class] and text without markup characters. *)
Definition dquote : string := String (Ascii.ascii_of_nat 34) "".

Fixpoint join (sep : string) (l : list string) : string :=
  match l with
  | [] => ""
  | [x] => x
  | x :: l' => x +:+ sep +:+ join sep l'
  end.

Definition class_attr (cs : list string) : string :=
  match cs with
  | [] => ""
  | _ => " class=" +:+ dquote +:+ join " " cs +:+ dquote
  end.

Fixpoint attrs_html (a : list (string * string)) : string :=
  match a with
  | [] => ""
  | (k, v) :: a' => " " +:+ k +:+ "=" +:+ dquote +:+ v +:+ dquote +:+ attrs_html a'
  end.

Fixpoint outerHTML (n : node) : string :=
  match n with
  | Text d => d
  | Elem t c a ks =>
      "<" +:+ t +:+ class_attr c +:+ attrs_html a +:+ ">" +:+
      (fix go (l : list node) : string :=
         match l with
         | [] => ""
         | k :: l' => outerHTML k +:+ go l'
         end) ks +:+
      "</" +:+ t +:+ ">"
  end.

Definition innerHTML (ks : list node) : string :=
  foldr (λ k acc, outerHTML k +:+ acc) "" ks.

End Dom.

(** ** The host: live ranges, the selection and the Editor.js API

    Modelled from the spec: the selection accessor, the range primitives and
    the [api.selection] capabilities are supplied by the browser and by
    Editor.js (spec section 6).  Range and Selection methods follow the DOM
    and Selection API standards; [findParentTag] and [expandToTag] follow the
    spec's description of the capability contract. *)

Module Host.
Import Dom.

(** A reference to an element: a node of the document, or an element that
    is not (or not yet) part of the document. *)
Inductive eref : Type :=
| InDoc (p : path)
| Detached (n : node).

(** The toolbar button ([HTMLButtonElement]), as far as the tool uses it. *)
Record button_el : Type := Button {
  btype : string;
  bclassList : list string;
  binnerHTML : string
}.

(** [api.styles] *)
Record styles : Type := Styles {
  inlineToolButton : string;
  inlineToolButtonActive : string
}.

Record icon_classes : Type := IconClasses { base : string; active : string }.

(** The fields of the tool instance ([this]). *)
Record instance : Type := MkInstance {
  button : option button_el;
  iconClasses : icon_classes
}.

(** Ghost record of a run: each entry into [wrap] or [unwrap] and each call
    of an [api.selection] capability appends to it.  It has no counterpart
    in the source and nothing reads it; it serves to state which calls a run
    made. *)
Inductive call : Type :=
| CallFindParentTag (tagName className : string)
| CallExpandToTag (element : eref)
| CallWrap
| CallUnwrap.

(** The state of the page.
    - [ranges] holds the live Range objects; a Range reference is an index
      into it.  [None] stands for a range whose boundary points lie outside
      the document.
    - [selection] is what [window.getSelection()] gives: [None] for [null],
      otherwise the references of the selection's ranges. *)
Record world : Type := World {
  doc : node;
  ranges : list (option range);
  selection : option (list nat);
  this : instance;
  calls : list call
}.

Definition set_doc (d : node) (w : world) : world :=
  World d (ranges w) (selection w) (this w) (calls w).
Definition set_ranges (rs : list (option range)) (w : world) : world :=
  World (doc w) rs (selection w) (this w) (calls w).
Definition set_selection (s : option (list nat)) (w : world) : world :=
  World (doc w) (ranges w) s (this w) (calls w).
Definition set_this (t : instance) (w : world) : world :=
  World (doc w) (ranges w) (selection w) t (calls w).
Definition set_calls (c : list call) (w : world) : world :=
  World (doc w) (ranges w) (selection w) (this w) c.

(** Exceptions.  [DanglingReference] is not a JavaScript exception: it marks
    a reference that denotes no object, which no JavaScript value does. *)
Inductive exn : Type :=
| IndexSizeError
| HierarchyRequestError
| TypeError
| DanglingReference.

Inductive outcome (A : Type) : Type :=
| Ok (a : A) (w : world)
| Throw (e : exn) (w : world).
Global Arguments Ok {A} a w.
Global Arguments Throw {A} e w.

Definition M (A : Type) : Type := world → outcome A.

Global Instance M_ret : MRet M := λ A a w, Ok a w.
Global Instance M_bind : MBind M := λ A B f m w,
  match m w with
  | Ok a w' => f a w'
  | Throw e w' => Throw e w'
  end.

Definition throw {A} (e : exn) : M A := λ w, Throw e w.
Definition get_world : M world := λ w, Ok w w.
Definition modify (f : world → world) : M unit := λ w, Ok tt (f w).
Definition record (c : call) : M unit :=
  modify (λ w, set_calls (calls w ++ [c]) w).

(** *** Selection *)

(** The Selection object is unique; a reference to it carries nothing. *)
Inductive sel_ref : Type := TheSelection.

(** [window.getSelection()] *)
Definition getSelection : M (option sel_ref) := λ w,
  match selection w with
  | Some _ => Ok (Some TheSelection) w
  | None => Ok None w
  end.

Definition sel_ranges (w : world) : list nat := default [] (selection w).

(** [sel.getRangeAt(index)]: raises IndexSizeError when [index] is not less
    than [rangeCount]; it never returns [null]. *)
Definition getRangeAt (sel : sel_ref) (index : nat) : M (option nat) := λ w,
  match sel_ranges w !! index with
  | Some h => Ok (Some h) w
  | None => Throw IndexSizeError w
  end.

(** [sel.removeAllRanges()] *)
Definition removeAllRanges (sel : sel_ref) : M unit :=
  modify (λ w, set_selection (const [] <$> selection w) w).

(** [sel.addRange(range)]: ignored when the range is not in the document or
    the selection already has a range. *)
Definition addRange (sel : sel_ref) (range : nat) : M unit := λ w,
  match ranges w !! range with
  | None => Throw DanglingReference w
  | Some None => Ok tt w
  | Some (Some _) =>
      match selection w with
      | Some [] => Ok tt (set_selection (Some [range]) w)
      | _ => Ok tt w
      end
  end.

(** *** Ranges *)

(** [document.createRange()]: a new range collapsed at the document's start. *)
Definition createRange : M nat := λ w,
  Ok (length (ranges w))
     (set_ranges (ranges w ++ [Some (Range (Bp [] 0) (Bp [] 0))]) w).

(** [range.selectNodeContents(node)] *)
Definition selectNodeContents (range : nat) (element : eref) : M unit := λ w,
  match ranges w !! range with
  | None => Throw DanglingReference w
  | Some _ =>
      match element with
      | InDoc p =>
          match get_node p (doc w) with
          | Some n =>
              Ok tt (set_ranges
                       (<[range := Some (Range (Bp p 0) (Bp p (node_length n)))]>
                          (ranges w)) w)
          | None => Throw DanglingReference w
          end
      | Detached _ => Ok tt (set_ranges (<[range := None]> (ranges w)) w)
      end
  end.

Definition adjust_all (f : bp → bp) (rs : list (option range))
  : list (option range) :=
  fmap (M := list) (fmap (M := option) (adj_range f)) rs.

(** [range.extractContents()]: the contents move into a fragment, the range
    collapses, the other live ranges follow the removals. *)
Definition extractContents (range : nat) : M (option fragment) := λ w,
  match ranges w !! range with
  | Some (Some r) =>
      match extract (doc w) r with
      | Some (d, f, np) =>
          Ok (Some f)
             (set_ranges
                (<[range := Some (Range np np)]>
                   (adjust_all (adj_extract (doc w) r) (ranges w)))
                (set_doc d w))
      | None => Throw DanglingReference w
      end
  | _ => Throw DanglingReference w
  end.

(** Insertion of [ns] before child [i] of the node at [pp], as the last steps
    of [insertNode] do it: the live ranges are shifted, and a range that was
    collapsed is extended over what was inserted. *)
Definition insert_before (range : nat) (pp : path) (i : nat) (ns : list node)
    (w : world) : world :=
  let rs := adjust_all (adj_insert pp i (length ns)) (ranges w) in
  let rs' :=
    match rs !! range with
    | Some (Some r) =>
        if collapsed r
        then <[range := Some (Range (rstart r) (Bp pp (i + length ns)))]> rs
        else rs
    | _ => rs
    end in
  set_ranges rs' (set_doc (upd_node pp (insert_kids i ns) (doc w)) w).

(** [range.insertNode(node)]: the node (or the children of the fragment) is
    inserted at the start of the range, a text node there being split first.
    The result is the path at which the first inserted node now lies. *)
Definition insertNode (range : nat) (c : content) : M path := λ w,
  match ranges w !! range with
  | Some (Some r) =>
      let s := rstart r in
      match get_node (bnode s) (doc w) with
      | Some (Text _) =>
          match split_last (bnode s) with
          | None => Throw HierarchyRequestError w
          | Some (pp, i) =>
              let w1 :=
                set_ranges (adjust_all (adj_split pp i (boff s)) (ranges w))
                  (set_doc (upd_node pp (split_kid i (boff s)) (doc w)) w) in
              Ok (pp ++ [S i]) (insert_before range pp (S i) (content_nodes c) w1)
          end
      | Some (Elem _ _ _ _) =>
          Ok (bnode s ++ [boff s])
             (insert_before range (bnode s) (boff s) (content_nodes c) w)
      | None => Throw DanglingReference w
      end
  | _ => Throw DanglingReference w
  end.

(** [document.createElement(name)] *)
Definition createElement (name : string) : M node := mret (new_element name).

(** [parent.appendChild(fragment)] on an element that is not in the
    document: the fragment's children are moved into it (the fragment is left
    empty, and is not used again).  A [null] argument raises TypeError. *)
Definition appendChild (parent : node) (f : option fragment) : M node :=
  match f with
  | Some f => mret (append_kids parent f)
  | None => throw TypeError
  end.

(** [node.parentNode?.removeChild(node)]: nothing happens when the node has
    no parent. *)
Definition removeFromParent (element : eref) : M unit := λ w,
  match element with
  | Detached _ => Ok tt w
  | InDoc p =>
      match split_last p with
      | None => Ok tt w
      | Some (pp, i) =>
          match get_node p (doc w) with
          | Some _ =>
              Ok tt (set_ranges (adjust_all (adj_remove pp i) (ranges w))
                       (set_doc (upd_node pp (remove_kid i) (doc w)) w))
          | None => Throw DanglingReference w
          end
      end
  end.

(** *** The Editor.js selection API *)

Definition is_tag (tagName className : string) (n : node) : bool :=
  match n with
  | Text _ => false
  | Elem t cs _ _ =>
      bool_decide (Str.toUpperCase t = tagName) && classList_contains className cs
  end.

(** The nearest node on the way from the node at [p] up to the root that is
    an element with the given tag name and class. *)
Fixpoint find_up (tagName className : string) (p : path) (n : node)
  : option path :=
  let self := if is_tag tagName className n then Some [] else None in
  match p with
  | [] => self
  | i :: p' =>
      match children n !! i with
      | Some k =>
          match find_up tagName className p' k with
          | Some q => Some (i :: q)
          | None => self
          end
      | None => self
      end
  end.

(** [api.selection.findParentTag(tagName, className)]: "ancestor search from
    current selection": from the node of the selection's anchor, then from
    the node of its focus; [null] when there is no selection. *)
Definition selection_tag (tagName className : string) (w : world)
  : option eref :=
  match sel_ranges w with
  | h :: _ =>
      match ranges w !! h with
      | Some (Some r) =>
          match find_up tagName className (bnode (rstart r)) (doc w) with
          | Some q => Some (InDoc q)
          | None => InDoc <$> find_up tagName className (bnode (rend r)) (doc w)
          end
      | _ => None
      end
  | [] => None
  end.

Definition findParentTag (tagName className : string) : M (option eref) :=
  record (CallFindParentTag tagName className);;
  w ← get_world;
  mret (selection_tag tagName className w).

(** [api.selection.expandToTag(element)]: "extends active selection to cover
    given node": the selection's ranges are replaced by one new range
    selecting the element's contents. *)
Definition expandToTag (element : eref) : M unit :=
  record (CallExpandToTag element);;
  sel ← getSelection;
  match sel with
  | None => mret tt
  | Some sel =>
      removeAllRanges sel;;
      range ← createRange;
      selectNodeContents range element;;
      addRange sel range
  end.

(** The range the selection holds, if it holds one in the document. *)
Definition selected (w : world) : option range :=
  match sel_ranges w with
  | h :: _ => default None (ranges w !! h)
  | [] => None
  end.

(** *** Observing a run

    The world a run ends in, whether it returned or threw, and the method
    entries ([wrap], [unwrap]) among recorded calls. *)
Definition final {A} (o : outcome A) : world :=
  match o with
  | Ok _ w => w
  | Throw _ w => w
  end.

Definition is_entry (c : call) : bool :=
  match c with
  | CallWrap | CallUnwrap => true
  | _ => false
  end.

Definition entries (l : list call) : list call :=
  filter (λ c, is_entry c = true) l.

(** A computation that enters neither [wrap] nor [unwrap]. *)
Definition silent {A} (m : M A) : Prop :=
  ∀ w, ∃ l, calls (final (m w)) = calls w ++ l ∧ entries l = [].

(** A computation that leaves the fields of the tool instance alone,
    whether it returns or throws. *)
Definition keeps_this {A} (m : M A) : Prop :=
  ∀ w, this (final (m w)) = this w.

(** *** The sanitizer

    Modelled from the spec: the host's sanitization pipeline, which consumes
    the tool's rule.  A configuration maps a tag to the attributes allowed
    on it, each with the value it must have.  "Any element with the fixed
    tag name is permitted to retain only the fixed class attribute; all
    other attributes on that tag are stripped."  Elements of tags without a
    rule are not this rule's business and are left as they are. *)
Abbreviation sanitizer_config := (gmap string (gmap string string)).

Definition attr_allowed (rule : gmap string string) (name value : string)
  : bool :=
  bool_decide (rule !! name = Some value).

Definition clean_classes (rule : gmap string string) (cs : list string)
  : list string :=
  if attr_allowed rule "class" (join " " cs) then cs else [].

Definition clean_attrs (rule : gmap string string) (a : list (string * string))
  : list (string * string) :=
  filter (λ kv, attr_allowed rule (fst kv) (snd kv) = true) a.

Fixpoint clean (cfg : sanitizer_config) (n : node) : node :=
  match n with
  | Text d => Text d
  | Elem t cs a ks =>
      match cfg !! t with
      | Some rule =>
          Elem t (clean_classes rule cs) (clean_attrs rule a) (map (clean cfg) ks)
      | None => Elem t cs a (map (clean cfg) ks)
      end
  end.

End Host.

(** ** The tool (src/index.ts, class [Underline]) *)

Module Underline.
Import Dom Host.

(** [static get CSS()] *)
Definition CSS : string := "cdx-underline".

(** [private tag: string = 'U'] *)
Definition tag : string := "U".

(** [constructor(options)]: [iconClasses] is read off [api.styles]. *)
Definition constructor (api_styles : styles) : instance :=
  {| button := None;
     iconClasses := {| base := inlineToolButton api_styles;
                       active := inlineToolButtonActive api_styles |} |}.

(** [static isInline = true] *)
Definition isInline : bool := true.

Section Methods.

(** [IconUnderline], the SVG markup imported from [@codexteam/icons]. *)
Variable IconUnderline : string.

(** [get toolboxIcon()] *)
Definition toolboxIcon : string := IconUnderline.

(** [render()] *)
Definition render : M button_el :=
  w ← get_world;
  let b := {| btype := "button";
              bclassList := classList_add (base (iconClasses (this w))) [];
              binnerHTML := toolboxIcon |} in
  modify (set_this {| button := Some b; iconClasses := iconClasses (this w) |});;
  mret b.

End Methods.

(** [wrap(range)].  [u] is rebound as the element is filled and inserted;
    after [insertNode] it denotes the element in the document. *)
Definition wrap (range : nat) : M unit :=
  record CallWrap;;
  u ← createElement tag;
  let u := elem_classList_add CSS u in
  contents ← extractContents range;
  u ← appendChild u contents;
  u ← insertNode range (OneNode u);
  expandToTag (InDoc u).

(** [unwrap(termWrapper)].  The three [match]es are the source's
    [if (!sel)], [if (!range)] and [if (!unwrappedContent)] guards. *)
Definition unwrap (termWrapper : eref) : M unit :=
  record CallUnwrap;;
  expandToTag termWrapper;;
  sel ← getSelection;
  match sel with
  | None => mret tt
  | Some sel =>
      range ← getRangeAt sel 0;
      match range with
      | None => mret tt
      | Some range =>
          unwrappedContent ← extractContents range;
          match unwrappedContent with
          | None => mret tt
          | Some unwrappedContent =>
              removeFromParent termWrapper;;
              insertNode range (Fragment unwrappedContent);;
              removeAllRanges sel;;
              addRange sel range
          end
      end
  end.

(** [surround(range)]; the argument is [None] for a [null] range. *)
Definition surround (range : option nat) : M unit :=
  match range with
  | None => mret tt
  | Some range =>
      termWrapper ← findParentTag tag CSS;
      match termWrapper with
      | Some termWrapper => unwrap termWrapper
      | None => wrap range
      end
  end.

(** [this.button?.classList.toggle(token, force)] *)
Definition button_toggle (token : string) (force : bool) : M unit :=
  modify (λ w,
    match button (this w) with
    | Some b =>
        set_this {| button := Some {| btype := btype b;
                                      bclassList := classList_toggle token force (bclassList b);
                                      binnerHTML := binnerHTML b |};
                    iconClasses := iconClasses (this w) |} w
    | None => w
    end).

(** [checkState()] *)
Definition checkState : M bool :=
  termTag ← findParentTag tag CSS;
  w ← get_world;
  button_toggle (active (iconClasses (this w))) (bool_decide (is_Some termTag));;
  mret (bool_decide (is_Some termTag)).

(** [static get sanitize()] *)
Definition sanitize : sanitizer_config :=
  {[ "u" := {[ "class" := CSS ]} ]}.

End Underline.

(** ** The host driving the tool

    Modelled from the spec: "[surround(range)] invoked by host on user
    action" with the "host-provided handle" of the selected span.  Each
    time, the host hands over the first range of the live selection,
    [null] when the selection has none. *)

Module Driver.
Import Dom Host Underline.

Definition toggle : M unit :=
  w ← get_world;
  surround (head (sel_ranges w)).

Fixpoint toggle_times (n : nat) : M unit :=
  match n with
  | 0 => mret tt
  | S n' => toggle;; toggle_times n'
  end.

(** The two states the tool alternates between when it starts on a
    selection that is not underlined.  [plain]: the selection holds one
    valid range with no underline element around it.  [underlined]: the
    selection covers the contents of a wrapper as [wrap] builds it, with no
    underline element around the wrapper. *)
Definition plain (w : world) : Prop :=
  ∃ h r,
    selection w = Some [h] ∧ ranges w !! h = Some (Some r) ∧
    valid_range (doc w) r = true ∧ is_elem (doc w) = true ∧
    selection_tag tag CSS w = None.

Definition underlined (w : world) : Prop :=
  ∃ h pp i f,
    selection w = Some [h] ∧
    ranges w !! h =
      Some (Some (Range (Bp (pp ++ [i]) 0) (Bp (pp ++ [i]) (length f)))) ∧
    get_node (pp ++ [i]) (doc w) = Some (Elem "u" [CSS] [] f) ∧
    find_up tag CSS pp (doc w) = None ∧ is_elem (doc w) = true.

End Driver.

(** ** A page to run the tool on (the scenario of spec section 8) *)

Module Scenario.
Import Dom Host Underline.

Definition api_styles : styles :=
  Styles "ce-inline-tool" "ce-inline-tool--active".

(** A block holding the text "npm init command". *)
Definition page : node := Elem "div" [] [] [Text "npm init command"].

(** The word "init", and the caret in front of it. *)
Definition word : range := Range (Bp [0] 4) (Bp [0] 8).
Definition caret : range := Range (Bp [0] 4) (Bp [0] 4).

(** The page with the selection holding the range [r]; the tool has been
    constructed and [render] has not been called. *)
Definition editing (d : node) (r : range) : world :=
  World d [Some r] (Some [0]) (constructor api_styles) [].

(** The same block with "init" underlined, and the range "ni" inside it. *)
Definition page_underlined : node :=
  Elem "div" [] []
    [Text "npm "; Elem "u" ["cdx-underline"] [] [Text "init"]; Text " command"].
Definition inside : range := Range (Bp [1; 0] 1) (Bp [1; 0] 3).

(** An underline element that is not part of the document. *)
Definition loose_wrapper : node := Elem "u" ["cdx-underline"] [] [Text "init"].

(** "a", an inner underlined "b" and "c", all inside an outer underline;
    and the range "b" inside the inner one. *)
Definition page_nested : node :=
  Elem "div" [] []
    [Elem "u" ["cdx-underline"] []
       [Text "a"; Elem "u" ["cdx-underline"] [] [Text "b"]; Text "c"]].
Definition inner : range := Range (Bp [0; 1; 0] 0) (Bp [0; 1; 0] 1).

(** Two paragraphs; the word "init" of the first one. *)
Definition two_blocks : node :=
  Elem "div" [] []
    [Elem "p" [] [] [Text "npm init command"]; Elem "p" [] [] [Text "other"]].
Definition word_in_block : range := Range (Bp [0; 0] 4) (Bp [0; 0] 8).

(** A world in which [render] has been called and the button is active. *)
Definition active_button : button_el :=
  Button "button" ["ce-inline-tool"; "ce-inline-tool--active"] "<svg/>".
Definition rendered (d : node) (r : range) : world :=
  World d [Some r] (Some [0])
    {| button := Some active_button;
       iconClasses := iconClasses (constructor api_styles) |} [].

(** The first of two paragraphs with "init" underlined, and the range "ni"
    inside the wrapper. *)
Definition two_blocks_underlined : node :=
  Elem "div" [] []
    [Elem "p" [] []
       [Text "npm "; Elem "u" ["cdx-underline"] [] [Text "init"];
        Text " command"];
     Elem "p" [] [] [Text "other"]].
Definition inside_block : range := Range (Bp [0; 1; 0] 1) (Bp [0; 1; 0] 3).

End Scenario.

(** * Facts about the model *)

(** ** Strings *)

Module StrFacts.
Import Str.

Lemma app_nil_l (s : string) : "" +:+ s = s.
Proof. reflexivity. Qed.

Lemma app_cons (c : ascii) (s t : string) :
  String c s +:+ t = String c (s +:+ t).
Proof. reflexivity. Qed.

Lemma app_nil_r (s : string) : s +:+ "" = s.
Proof. induction s as [|c s IH]; [done | by rewrite app_cons, IH]. Qed.

Lemma app_assoc (s1 s2 s3 : string) : (s1 +:+ s2) +:+ s3 = s1 +:+ (s2 +:+ s3).
Proof.
  induction s1 as [|c s1 IH]; [done | by rewrite !app_cons, IH].
Qed.

Lemma stake_sdrop (n : nat) (s : string) : stake n s +:+ sdrop n s = s.
Proof.
  revert s; induction n as [|n IH]; intros [|c s]; simpl; try done.
  by rewrite app_cons, IH.
Qed.

Lemma stake_0 (s : string) : stake 0 s = "".
Proof. by destruct s. Qed.

Lemma sdrop_0 (s : string) : sdrop 0 s = s.
Proof. by destruct s. Qed.

Lemma length_stake (n : nat) (s : string) :
  n ≤ String.length s → String.length (stake n s) = n.
Proof.
  revert s; induction n as [|n IH]; intros [|c s] H; simpl in *; try done; try lia.
  rewrite IH; [done | lia].
Qed.

(** Cutting out the middle of a string: what is before [a], what lies
    between [a] and [b], and what is after [b] make up the string. *)
Lemma stake_split (a b : nat) (s : string) :
  a ≤ b → stake b s = stake a s +:+ substringData a (b - a) s.
Proof.
  unfold substringData. revert b s; induction a as [|a IH]; intros b s H.
  - rewrite stake_0, sdrop_0, Nat.sub_0_r. reflexivity.
  - destruct b as [|b]; [lia|]. destruct s as [|c s]; simpl.
    + by destruct (b - a).
    + rewrite app_cons, (IH b s) by lia. done.
Qed.

Lemma middle_split (a b : nat) (s : string) :
  a ≤ b → s = stake a s +:+ (substringData a (b - a) s +:+ sdrop b s).
Proof.
  intros H. rewrite <- app_assoc, <- stake_split by done.
  by rewrite stake_sdrop.
Qed.

Lemma length_app (a b : string) :
  String.length (a +:+ b) = String.length a + String.length b.
Proof.
  induction a as [|c a IH]; [done|]. rewrite app_cons. simpl. by rewrite IH.
Qed.

Lemma stake_app_exact (n : nat) (a b : string) :
  String.length a = n → stake n (a +:+ b) = a.
Proof.
  revert n; induction a as [|c a IH]; intros n <-.
  - apply stake_0.
  - rewrite app_cons. simpl. by rewrite IH.
Qed.

Lemma sdrop_app_exact (n : nat) (a b : string) :
  String.length a = n → sdrop n (a +:+ b) = b.
Proof.
  revert n; induction a as [|c a IH]; intros n <-.
  - apply sdrop_0.
  - rewrite app_cons. simpl. by rewrite IH.
Qed.

End StrFacts.

(** ** The document tree *)

Module DomFacts.
Import Dom.

Lemma textContent_Text d : textContent (Text d) = d.
Proof. reflexivity. Qed.

Lemma textContent_Elem t c a ks : textContent (Elem t c a ks) = texts ks.
Proof.
  unfold textContent, texts.
  induction ks as [|k ks IH]; [done | by rewrite foldr_cons, <- IH].
Qed.

Lemma texts_nil : texts [] = "".
Proof. reflexivity. Qed.

Lemma texts_cons k ks : texts (k :: ks) = textContent k +:+ texts ks.
Proof. reflexivity. Qed.

Lemma texts_app ks1 ks2 : texts (ks1 ++ ks2) = texts ks1 +:+ texts ks2.
Proof.
  induction ks1 as [|k ks1 IH]; [done|].
  change ((k :: ks1) ++ ks2) with (k :: (ks1 ++ ks2)).
  by rewrite !texts_cons, IH, StrFacts.app_assoc.
Qed.

Lemma texts_singleton k : texts [k] = textContent k.
Proof. rewrite texts_cons, texts_nil. apply StrFacts.app_nil_r. Qed.

Lemma texts_take_drop i ks : texts ks = texts (take i ks) +:+ texts (drop i ks).
Proof. by rewrite <- texts_app, take_drop. Qed.

Lemma texts_lookup i k ks :
  ks !! i = Some k →
  texts ks = texts (take i ks) +:+ (textContent k +:+ texts (drop (S i) ks)).
Proof.
  intros H. rewrite <- texts_cons, <- texts_app.
  by rewrite <- (take_drop_middle ks i k H) at 1.
Qed.


(** *** Text before and after a boundary point *)

Lemma text_before_after p o n :
  text_before p o n +:+ text_after p o n = textContent n.
Proof.
  revert n; induction p as [|i p IH]; intros [d | t c a ks]; simpl;
    try apply StrFacts.stake_sdrop.
  - rewrite textContent_Elem. symmetry. apply texts_take_drop.
  - rewrite textContent_Elem. destruct (ks !! i) as [k|] eqn:Hk.
    + rewrite StrFacts.app_assoc, <- (StrFacts.app_assoc (text_before p o k)).
      rewrite IH. symmetry. by apply texts_lookup.
    + apply StrFacts.app_nil_r.
Qed.

Lemma cut_right_text rel so n :
  textContent (cut_right rel so n).1 = text_before rel so n ∧
  textContent (cut_right rel so n).2 = text_after rel so n.
Proof.
  revert n; induction rel as [|i rel IH]; intros [d | t c a ks]; simpl;
    rewrite ?textContent_Elem; try done.
  destruct (ks !! i) as [k|] eqn:Hk; simpl; rewrite ?textContent_Elem; [|done].
  destruct (IH k) as [H1 H2].
  destruct (cut_right rel so k) as [k1 k2]; simpl in *.
  rewrite !textContent_Elem, texts_app, texts_singleton, texts_cons.
  by rewrite H1, H2.
Qed.

Lemma cut_left_text rel eo n :
  textContent (cut_left rel eo n).1 = text_after rel eo n ∧
  textContent (cut_left rel eo n).2 = text_before rel eo n.
Proof.
  revert n; induction rel as [|j rel IH]; intros [d | t c a ks]; simpl;
    rewrite ?textContent_Elem; try done.
  destruct (ks !! j) as [k|] eqn:Hk; simpl; rewrite ?textContent_Elem; [|done].
  destruct (IH k) as [H1 H2].
  destruct (cut_left rel eo k) as [k1 k2]; simpl in *.
  rewrite !textContent_Elem, texts_app, texts_singleton, texts_cons.
  by rewrite H1, H2.
Qed.


(** *** Extraction below the common ancestor *)

Lemma valid_bp_nil o n : valid_bp n (Bp [] o) = true ↔ o ≤ node_length n.
Proof. unfold valid_bp; simpl. by rewrite bool_decide_eq_true. Qed.

Lemma valid_bp_cons i p o n :
  valid_bp n (Bp (i :: p) o) = true ↔
  ∃ k, children n !! i = Some k ∧ valid_bp k (Bp p o) = true.
Proof.
  unfold valid_bp; simpl. destruct n as [d | t c a ks]; simpl.
  - split; [done | by intros (k & ? & _)].
  - destruct (ks !! i) as [k|]; [|split; [done | by intros (k & ? & _)]].
    split; [by exists k | by intros (k' & [= <-] & ?)].
Qed.

Lemma extract_at_spec rs so re eo n :
  rel_ok rs so re eo n →
  let n' := (extract_at rs so re eo n).1 in
  let f := (extract_at rs so re eo n).2 in
  let o' := boff (collapse_point rs so) in
  text_before [] o' n' = text_before rs so n ∧
  text_after [] o' n' = text_after re eo n ∧
  textContent n = text_before rs so n +:+ (texts f +:+ text_after re eo n) ∧
  o' ≤ node_length n' ∧
  label n' = label n.
Proof.
  intros (Hs & He & Hord). unfold rel_order in Hord.
  destruct n as [d | t c a ks].
  - (* a text node: both boundary points are in it *)
    destruct rs; [|by apply valid_bp_cons in Hs as (? & ? & _)].
    destruct re; [|by apply valid_bp_cons in He as (? & ? & _)].
    apply valid_bp_nil in Hs, He. simpl in *.
    assert (String.length (Str.stake so d) = so) as Hlen
      by (apply StrFacts.length_stake; lia).
    rewrite StrFacts.stake_app_exact, StrFacts.sdrop_app_exact by done.
    rewrite !textContent_Text, texts_singleton, textContent_Text.
    split_and!; try done.
    + by apply StrFacts.middle_split.
    + rewrite StrFacts.length_app, Hlen. lia.
  - destruct rs as [|i rs], re as [|j re]; simpl in *.
    + apply valid_bp_nil in Hs, He. simpl in *.
      rewrite take_app_le, take_take, Nat.min_id by (rewrite length_take; lia).
      rewrite drop_app_length' by (rewrite length_take; lia).
      rewrite textContent_Elem, length_app, length_take.
      split_and!; try done; [|lia].
      rewrite (texts_take_drop so ks) at 1.
      rewrite (texts_take_drop (eo - so) (drop so ks)), drop_drop.
      by replace (so + (eo - so)) with eo by lia.
    + apply valid_bp_nil in Hs. simpl in Hs.
      apply valid_bp_cons in He as (k & Hk & He). simpl in Hk. rewrite Hk.
      destruct (cut_left_text re eo k) as [H1 H2].
      destruct (cut_left re eo k) as [k1 k2]; simpl in *.
      rewrite take_app_le, take_take, Nat.min_id by (rewrite length_take; lia).
      rewrite drop_app_length' by (rewrite length_take; lia).
      rewrite textContent_Elem, texts_app, texts_singleton, texts_cons, H1, H2.
      rewrite !length_app, length_take.
      split_and!; try done; [|lia].
      rewrite (texts_take_drop so ks) at 1.
      rewrite (texts_take_drop (j - so) (drop so ks)), drop_drop.
      replace (so + (j - so)) with j by lia.
      rewrite (texts_lookup 0 k (drop j ks)), take_0, texts_nil, drop_drop
        by (by rewrite lookup_drop, Nat.add_0_r).
      rewrite <- (text_before_after re eo k), Nat.add_1_r.
      by rewrite !StrFacts.app_assoc.
    + apply valid_bp_cons in Hs as (k & Hk & Hs). simpl in Hk.
      apply valid_bp_nil in He. simpl in He. rewrite Hk.
      destruct (cut_right_text rs so k) as [H1 H2].
      destruct (cut_right rs so k) as [k1 k2]; simpl in *.
      assert (i < length ks) by (by eapply lookup_lt_Some).
      replace (take i ks ++ k1 :: drop eo ks)
        with ((take i ks ++ [k1]) ++ drop eo ks) by (by rewrite <- app_assoc).
      rewrite take_app_length', drop_app_length'
        by (rewrite length_app, length_take; simpl; lia).
      rewrite textContent_Elem, texts_app, texts_singleton, texts_cons, H1, H2.
      rewrite !length_app, length_take. simpl.
      split_and!; try done; [|lia].
      rewrite (texts_lookup i k ks Hk), <- (text_before_after rs so k).
      rewrite (texts_take_drop (eo - S i) (drop (S i) ks)), drop_drop.
      replace (S i + (eo - S i)) with eo by lia.
      by rewrite !StrFacts.app_assoc.
    + apply valid_bp_cons in Hs as (ki & Hki & Hs). simpl in Hki.
      apply valid_bp_cons in He as (kj & Hkj & He). simpl in Hkj.
      rewrite Hki, Hkj.
      destruct (cut_right_text rs so ki) as [H1 H2].
      destruct (cut_left_text re eo kj) as [H3 H4].
      destruct (cut_right rs so ki) as [f1 f2].
      destruct (cut_left re eo kj) as [l1 l2]; simpl in *.
      assert (i < length ks) by (by eapply lookup_lt_Some).
      replace (take i ks ++ f1 :: l1 :: drop (S j) ks)
        with ((take i ks ++ [f1]) ++ l1 :: drop (S j) ks)
        by (by rewrite <- app_assoc).
      rewrite take_app_length', drop_app_length'
        by (rewrite length_app, length_take; simpl; lia).
      rewrite textContent_Elem, !texts_app, texts_singleton, !texts_cons.
      rewrite texts_app, texts_singleton, H1, H2, H3, H4.
      rewrite !length_app, length_take. simpl.
      split_and!; try done; [|lia].
      rewrite (texts_lookup i ki ks Hki), <- (text_before_after rs so ki).
      rewrite (texts_take_drop (j - S i) (drop (S i) ks)), drop_drop.
      replace (S i + (j - S i)) with j by lia.
      rewrite (texts_lookup 0 kj (drop j ks)), take_0, texts_nil, drop_drop
        by (by rewrite lookup_drop, Nat.add_0_r).
      rewrite <- (text_before_after re eo kj), Nat.add_1_r.
      by rewrite !StrFacts.app_assoc.
Qed.


(** *** Locality: what lies at a path, and the text around it *)

Lemma get_node_app c q doc :
  get_node (c ++ q) doc = get_node c doc ≫= get_node q.
Proof.
  revert doc; induction c as [|i c IH]; intros doc; simpl; [done|].
  destruct doc as [d | t cl a ks]; [done|].
  destruct (ks !! i) as [k|]; [apply IH | done].
Qed.

Lemma get_node_snoc pp i doc n :
  get_node pp doc = Some n → get_node (pp ++ [i]) doc = children n !! i.
Proof.
  intros H. rewrite get_node_app, H. simpl.
  destruct n as [d | t c a ks]; simpl; [done|]. by destruct (ks !! i).
Qed.

Lemma get_set_node c n n' doc :
  get_node c doc = Some n → get_node c (set_node c n' doc) = Some n'.
Proof.
  revert doc; induction c as [|i c IH]; intros doc H; simpl in *; [done|].
  destruct doc as [d | t cl a ks]; [done|].
  destruct (ks !! i) as [k|] eqn:Hk; [|done].
  rewrite list_lookup_alter_eq, Hk. simpl. by apply IH.
Qed.

Lemma set_node_app c q n m doc :
  get_node c doc = Some n →
  set_node (c ++ q) m doc = set_node c (set_node q m n) doc.
Proof.
  revert doc; induction c as [|i c IH]; intros doc H; simpl in *.
  - by injection H as ->.
  - destruct doc as [d | t cl a ks]; [done|].
    destruct (ks !! i) as [k|] eqn:Hk; [|done].
    f_equal. apply list_alter_ext; [|done..].
    intros k' Hk'. rewrite Hk in Hk'. injection Hk' as <-. by apply IH.
Qed.

Lemma set_node_same c n doc :
  get_node c doc = Some n → set_node c n doc = doc.
Proof.
  revert doc; induction c as [|i c IH]; intros doc H; simpl in *.
  - by injection H as ->.
  - destruct doc as [d | t cl a ks]; [done|].
    destruct (ks !! i) as [k|] eqn:Hk; [|done].
    f_equal. rewrite <- (list_alter_id id ks i) at 2 by done.
    apply list_alter_ext; [|done].
    intros k' Hk'. rewrite Hk in Hk'. injection Hk' as <-. by apply IH.
Qed.

Lemma upd_node_app c q f n doc :
  get_node c doc = Some n →
  upd_node (c ++ q) f doc = set_node c (upd_node q f n) doc.
Proof.
  intros H. unfold upd_node. rewrite get_node_app, H. simpl.
  destruct (get_node q n) as [m|] eqn:Hm.
  - by apply set_node_app.
  - symmetry. by apply set_node_same.
Qed.

Lemma upd_node_here c f n doc :
  get_node c doc = Some n → upd_node c f doc = set_node c (f n) doc.
Proof. intros H. unfold upd_node. by rewrite H. Qed.

Lemma set_set_node c n m1 m2 doc :
  get_node c doc = Some n →
  set_node c m2 (set_node c m1 doc) = set_node c m2 doc.
Proof.
  revert doc; induction c as [|i c IH]; intros doc H; simpl in *; [done|].
  destruct doc as [d | t cl a ks]; [done|].
  destruct (ks !! i) as [k|] eqn:Hk; [|done].
  f_equal. rewrite list_alter_alter_eq. apply list_alter_ext; [|done..].
  intros k' Hk'. rewrite Hk in Hk'. injection Hk' as <-. simpl. by apply IH.
Qed.

Lemma textContent_context c n doc :
  get_node c doc = Some n →
  textContent doc = left_of c doc +:+ (textContent n +:+ right_of c doc).
Proof.
  revert doc; induction c as [|i c IH]; intros doc H; simpl in *.
  - injection H as ->. by rewrite StrFacts.app_nil_r.
  - destruct doc as [d | t cl a ks]; [done|]. simpl.
    destruct (ks !! i) as [k|] eqn:Hk; [|done].
    rewrite textContent_Elem, (texts_lookup i k ks Hk), (IH k H).
    by rewrite !StrFacts.app_assoc.
Qed.

Lemma left_of_set_node c n n' doc :
  get_node c doc = Some n → left_of c (set_node c n' doc) = left_of c doc.
Proof.
  revert doc; induction c as [|i c IH]; intros doc H; simpl in *; [done|].
  destruct doc as [d | t cl a ks]; [done|]. simpl.
  destruct (ks !! i) as [k|] eqn:Hk; [|done].
  rewrite list_lookup_alter_eq, Hk. simpl.
  rewrite take_alter_ge by done. by rewrite (IH k H).
Qed.

Lemma right_of_set_node c n n' doc :
  get_node c doc = Some n → right_of c (set_node c n' doc) = right_of c doc.
Proof.
  revert doc; induction c as [|i c IH]; intros doc H; simpl in *; [done|].
  destruct doc as [d | t cl a ks]; [done|]. simpl.
  destruct (ks !! i) as [k|] eqn:Hk; [|done].
  rewrite list_lookup_alter_eq, Hk. simpl.
  rewrite drop_alter_lt by lia. by rewrite (IH k H).
Qed.

Lemma textContent_set_node c n n' doc :
  get_node c doc = Some n →
  textContent (set_node c n' doc) =
  left_of c doc +:+ (textContent n' +:+ right_of c doc).
Proof.
  intros H.
  rewrite (textContent_context c n' (set_node c n' doc))
    by (by eapply get_set_node).
  by rewrite (left_of_set_node c n), (right_of_set_node c n).
Qed.

Lemma text_before_app c q o n doc :
  get_node c doc = Some n →
  text_before (c ++ q) o doc = left_of c doc +:+ text_before q o n.
Proof.
  revert doc; induction c as [|i c IH]; intros doc H; simpl in *.
  - by injection H as ->.
  - destruct doc as [d | t cl a ks]; [done|]. simpl.
    destruct (ks !! i) as [k|] eqn:Hk; [|done].
    by rewrite (IH k H), StrFacts.app_assoc.
Qed.

Lemma text_after_app c q o n doc :
  get_node c doc = Some n →
  text_after (c ++ q) o doc = text_after q o n +:+ right_of c doc.
Proof.
  revert doc; induction c as [|i c IH]; intros doc H; simpl in *.
  - injection H as ->. by rewrite StrFacts.app_nil_r.
  - destruct doc as [d | t cl a ks]; [done|]. simpl.
    destruct (ks !! i) as [k|] eqn:Hk; [|done].
    by rewrite (IH k H), StrFacts.app_assoc.
Qed.

Lemma valid_bp_app c q o n doc :
  get_node c doc = Some n →
  valid_bp doc (Bp (c ++ q) o) = valid_bp n (Bp q o).
Proof. intros H. unfold valid_bp; simpl. by rewrite get_node_app, H. Qed.

Lemma label_set_node c n n' doc :
  get_node c doc = Some n → label n' = label n →
  label (set_node c n' doc) = label doc.
Proof.
  destruct c as [|i c]; simpl; [by intros [= ->] | ].
  by destruct doc.
Qed.

Lemma is_elem_label n n' : label n' = label n → is_elem n' = is_elem n.
Proof. by destruct n, n'. Qed.

(** *** The common ancestor of two boundary points *)

Lemma common_prefix_spec p q :
  let '(c, rp, rq) := common_prefix p q in
  p = c ++ rp ∧ q = c ++ rq ∧ heads_differ rp rq.
Proof.
  unfold heads_differ.
  revert q; induction p as [|i p IH]; intros [|j q]; simpl; try done.
  destruct (decide (i = j)) as [->|]; [|done].
  specialize (IH q). destruct (common_prefix p q) as [[c rp] rq].
  destruct IH as (-> & -> & ?). done.
Qed.

Lemma seq_le_app c s e : seq_le (c ++ s) (c ++ e) = seq_le s e.
Proof.
  induction c as [|x c IH]; simpl; [done|]. by rewrite decide_True.
Qed.


Lemma seq_le_rel rs so re eo :
  heads_differ rs re →
  seq_le (rs ++ [so]) (re ++ [eo]) = true →
  rel_order rs so re eo.
Proof.
  unfold heads_differ, rel_order.
  destruct rs as [|i rs], re as [|j re]; simpl; intros Hne H.
  - destruct (decide (so = eo)); [lia|]. apply bool_decide_eq_true in H. lia.
  - destruct (decide (so = j)); [lia|]. apply bool_decide_eq_true in H. lia.
  - destruct (decide (i = eo)) as [->|].
    + by destruct rs.
    + by apply bool_decide_eq_true in H.
  - rewrite decide_False in H by done. by apply bool_decide_eq_true in H.
Qed.

(** *** Extraction on the document *)

Lemma extract_spec doc r :
  valid_range doc r = true →
  ∃ c n n' f o',
    extract doc r = Some (set_node c n' doc, f, Bp c o') ∧
    get_node c doc = Some n ∧
    label n' = label n ∧
    o' ≤ node_length n' ∧
    (∃ rs, bnode (rstart r) = c ++ rs) ∧
    text_before c o' (set_node c n' doc) =
      text_before (bnode (rstart r)) (boff (rstart r)) doc ∧
    text_after c o' (set_node c n' doc) =
      text_after (bnode (rend r)) (boff (rend r)) doc ∧
    textContent doc =
      text_before (bnode (rstart r)) (boff (rstart r)) doc +:+
      (texts f +:+ text_after (bnode (rend r)) (boff (rend r)) doc).
Proof.
  unfold valid_range, extract. intros Hv.
  apply andb_true_iff in Hv as [Hv Hle]. apply andb_true_iff in Hv as [Hs He].
  destruct r as [[ps so] [pe eo]]; simpl in *.
  destruct (collapsed _) eqn:Hcol.
  - (* a collapsed range: nothing is extracted *)
    apply bool_decide_eq_true in Hcol. simpl in Hcol. injection Hcol as <- <-.
    unfold valid_bp in Hs. simpl in Hs.
    destruct (get_node ps doc) as [n|] eqn:Hn; [|done].
    apply bool_decide_eq_true in Hs.
    exists ps, n, n, [], so. rewrite (set_node_same ps n doc Hn).
    split_and!; try done.
    + exists []. by rewrite app_nil_r.
    + rewrite texts_nil. simpl. symmetry. apply text_before_after.
  - pose proof (common_prefix_spec ps pe) as Hcp.
    destruct (common_prefix ps pe) as [[c rs] re].
    destruct Hcp as (-> & -> & Hne).
    unfold bp_le in Hle. simpl in Hle.
    rewrite <- !app_assoc, seq_le_app in Hle.
    pose proof (seq_le_rel rs so re eo Hne Hle) as Hord.
    destruct (get_node c doc) as [n|] eqn:Hn;
      [|by unfold valid_bp in Hs; simpl in Hs; rewrite get_node_app, Hn in Hs].
    rewrite (valid_bp_app c rs so n doc Hn) in Hs.
    rewrite (valid_bp_app c re eo n doc Hn) in He.
    destruct (extract_at_spec rs so re eo n) as (H1 & H2 & H3 & H4 & H5);
      [done|].
    destruct (extract_at rs so re eo n) as [n' f] eqn:Hex.
    cbn [fst snd] in H1, H2, H3, H4, H5.
    exists c, n, n', f, (boff (collapse_point rs so)).
    assert (get_node c (set_node c n' doc) = Some n') as Hn'
      by (by eapply get_set_node).
    split_and!; try done.
    + unfold rebase. by destruct rs; simpl; rewrite app_nil_r.
    + by exists rs.
    + rewrite <- (app_nil_r c) at 1.
      rewrite (text_before_app c [] _ n' _ Hn'), (text_before_app c rs _ n _ Hn).
      by rewrite (left_of_set_node c n), H1.
    + rewrite <- (app_nil_r c) at 1.
      rewrite (text_after_app c [] _ n' _ Hn'), (text_after_app c re _ n _ Hn).
      by rewrite (right_of_set_node c n), H2.
    + rewrite (textContent_context c n doc Hn), H3.
      rewrite (text_before_app c rs _ n _ Hn), (text_after_app c re _ n _ Hn).
      by rewrite !StrFacts.app_assoc.
Qed.


(** *** Insertion at a boundary point *)

Lemma split_last_snoc pp i : split_last (pp ++ [i]) = Some (pp, i).
Proof.
  induction pp as [|j pp IH]; simpl; [done|].
  rewrite IH. by destruct pp.
Qed.

Lemma split_last_Some c pp i : split_last c = Some (pp, i) → c = pp ++ [i].
Proof.
  revert pp; induction c as [|j c IH]; intros pp H; simpl in H; [done|].
  destruct c as [|j' c'].
  - by injection H as <- <-.
  - destruct (split_last (j' :: c')) as [[pp' i']|] eqn:Hc; [|done].
    injection H as <- <-. by rewrite (IH pp' eq_refl).
Qed.

Lemma split_last_None c : split_last c = None → c = [].
Proof.
  induction c as [|j c IH]; simpl; [done|]. intros H.
  destruct c as [|j' c']; [done|].
  destruct (split_last (j' :: c')) as [[pp' i']|]; [done|].
  by specialize (IH eq_refl).
Qed.

Lemma insert_at_spec c o ns d m :
  get_node c d = Some m → o ≤ node_length m → is_elem d = true →
  ∃ pp q i P t cl a L R,
    insert_at (Bp c o) ns d = Some (set_node pp (Elem t cl a (L ++ ns ++ R)) d, pp, i) ∧
    c = pp ++ q ∧
    get_node pp d = Some P ∧
    label P = Some (t, cl) ∧
    length L = i ∧
    texts L = text_before q o P ∧
    texts R = text_after q o P.
Proof.
  intros Hm Ho Hd. unfold insert_at. simpl. rewrite Hm.
  destruct m as [dd | t cl a ks].
  - destruct (split_last c) as [[pp i]|] eqn:Hsl.
    + apply split_last_Some in Hsl as ->.
      rewrite get_node_app in Hm.
      destruct (get_node pp d) as [P|] eqn:HP; [|done]. simpl in Hm.
      destruct P as [? | t cl a ks]; [done|].
      destruct (ks !! i) as [k|] eqn:Hk; [|done]. simpl in Hm.
      injection Hm as ->.
      assert (i < length ks) by (by eapply lookup_lt_Some).
      exists pp, [i], (S i), (Elem t cl a ks), t, cl, a,
        (take i ks ++ [Text (Str.stake o dd)]),
        (Text (Str.sdrop o dd) :: drop (S i) ks).
      split_and!; try done.
      * rewrite (upd_node_here pp _ _ d HP).
        rewrite (upd_node_here pp _ (split_kid i o (Elem t cl a ks)))
          by (by eapply get_set_node).
        rewrite (set_set_node pp _ _ _ d HP). simpl. rewrite Hk. simpl.
        do 3 f_equal.
        replace (take i ks ++ Text (Str.stake o dd) :: Text (Str.sdrop o dd)
                   :: drop (S i) ks)
          with ((take i ks ++ [Text (Str.stake o dd)]) ++
                 Text (Str.sdrop o dd) :: drop (S i) ks)
          by (by rewrite <- app_assoc).
        rewrite take_app_length', drop_app_length'
          by (rewrite length_app, length_take; simpl; lia).
        by rewrite <- !app_assoc.
      * rewrite length_app, length_take. simpl. lia.
      * simpl. rewrite Hk. by rewrite texts_app, texts_singleton.
      * simpl. rewrite Hk. by rewrite texts_cons.
    + apply split_last_None in Hsl as ->. simpl in Hm.
      injection Hm as ->. done.
  - simpl in Ho.
    exists c, [], o, (Elem t cl a ks), t, cl, a, (take o ks), (drop o ks).
    split_and!; try done.
    + by rewrite (upd_node_here c _ _ d Hm).
    + by rewrite app_nil_r.
    + rewrite length_take. lia.
Qed.


(** *** Extracting the contents of an element *)

Lemma common_prefix_same p : common_prefix p p = (p, [], []).
Proof.
  induction p as [|i p IH]; simpl; [done|]. by rewrite decide_True, IH.
Qed.

Lemma extract_contents p t c a ks doc :
  get_node p doc = Some (Elem t c a ks) →
  extract doc (Range (Bp p 0) (Bp p (length ks))) =
    Some (set_node p (Elem t c a []) doc, ks, Bp p 0).
Proof.
  intros Hn. unfold extract, collapsed. simpl.
  destruct ks as [|k ks].
  - rewrite bool_decide_eq_true_2 by done. by rewrite (set_node_same p _ _ Hn).
  - rewrite bool_decide_eq_false_2 by done.
    rewrite common_prefix_same, Hn. unfold extract_at.
    rewrite take_0, drop_all, Nat.sub_0_r, drop_0, firstn_all.
    unfold rebase. simpl. by rewrite app_nil_r.
Qed.


(** *** Ranges over children of one node *)

Lemma valid_range_kids pp i k n doc :
  get_node pp doc = Some n → i + k ≤ node_length n →
  valid_range doc (Range (Bp pp i) (Bp pp (i + k))) = true.
Proof.
  intros Hn Hle. unfold valid_range, valid_bp, bp_le. simpl. rewrite Hn.
  rewrite !bool_decide_eq_true_2 by lia. simpl.
  rewrite seq_le_app. simpl.
  destruct (decide (i = i + k)); [done|]. apply bool_decide_eq_true. lia.
Qed.

Lemma range_text_kids pp t c a L ks R doc :
  get_node pp doc = Some (Elem t c a (L ++ ks ++ R)) →
  range_text doc (Range (Bp pp (length L)) (Bp pp (length L + length ks))) =
  texts ks.
Proof.
  intros Hn. unfold range_text, extract, collapsed. simpl.
  destruct ks as [|k ks].
  - simpl. rewrite Nat.add_0_r. by rewrite bool_decide_eq_true_2.
  - rewrite bool_decide_eq_false_2 by (simpl; intros [=]; lia).
    rewrite common_prefix_same, Hn. unfold extract_at.
    replace (length L + length (k :: ks) - length L) with (length (k :: ks))
      by lia.
    by rewrite drop_app_length, take_app_length.
Qed.

Lemma left_of_snoc pp i P k doc :
  get_node pp doc = Some P → children P !! i = Some k →
  left_of (pp ++ [i]) doc = left_of pp doc +:+ texts (take i (children P)).
Proof.
  revert doc; induction pp as [|j pp IH]; intros doc HP Hk; simpl in *.
  - injection HP as ->. rewrite Hk. by rewrite StrFacts.app_nil_r.
  - destruct doc as [d | t cl a ks]; [done|]. simpl.
    destruct (ks !! j) as [k'|] eqn:Hj; [|done].
    by rewrite (IH k' HP Hk), StrFacts.app_assoc.
Qed.

Lemma right_of_snoc pp i P k doc :
  get_node pp doc = Some P → children P !! i = Some k →
  right_of (pp ++ [i]) doc = texts (drop (S i) (children P)) +:+ right_of pp doc.
Proof.
  revert doc; induction pp as [|j pp IH]; intros doc HP Hk; simpl in *.
  - injection HP as ->. rewrite Hk. by rewrite StrFacts.app_nil_r.
  - destruct doc as [d | t cl a ks]; [done|]. simpl.
    destruct (ks !! j) as [k'|] eqn:Hj; [|done].
    by rewrite (IH k' HP Hk), StrFacts.app_assoc.
Qed.


Lemma text_before_node c o n doc :
  get_node c doc = Some n →
  text_before c o doc = left_of c doc +:+ text_before [] o n.
Proof.
  intros H. rewrite <- (app_nil_r c) at 1. by apply text_before_app.
Qed.

Lemma text_after_node c o n doc :
  get_node c doc = Some n →
  text_after c o doc = text_after [] o n +:+ right_of c doc.
Proof.
  intros H. rewrite <- (app_nil_r c) at 1. by apply text_after_app.
Qed.




(** *** Class lists *)

Lemma elem_of_classList_add x c cs :
  x ∈ classList_add c cs ↔ x = c ∨ x ∈ cs.
Proof.
  unfold classList_add, classList_contains. case_bool_decide as H.
  - split; [by right | by intros [-> | ?]].
  - rewrite elem_of_app, list_elem_of_singleton. tauto.
Qed.

Lemma elem_of_classList_remove x c cs :
  x ∈ classList_remove c cs ↔ x ≠ c ∧ x ∈ cs.
Proof. unfold classList_remove. by rewrite list_elem_of_filter. Qed.

Lemma elem_of_classList_toggle x c force cs :
  x ∈ classList_toggle c force cs ↔
  if decide (x = c) then force = true else x ∈ cs.
Proof.
  unfold classList_toggle. destruct force.
  - rewrite elem_of_classList_add. destruct (decide (x = c)); tauto.
  - rewrite elem_of_classList_remove.
    destruct (decide (x = c)); [split; [tauto | done] | tauto].
Qed.

End DomFacts.

(** ** The host primitives *)

Module HostFacts.
Import Dom Host DomFacts.

Lemma bind_ok {A B} (m : M A) (f : A → M B) w a w1 :
  m w = Ok a w1 → (m ≫= f) w = f a w1.
Proof. intros H. unfold mbind, M_bind. by rewrite H. Qed.

Lemma bind_throw {A B} (m : M A) (f : A → M B) w e w1 :
  m w = Throw e w1 → (m ≫= f) w = Throw e w1.
Proof. intros H. unfold mbind, M_bind. by rewrite H. Qed.

Lemma length_adjust_all f rs : length (adjust_all f rs) = length rs.
Proof. unfold adjust_all. by rewrite length_fmap. Qed.

Lemma lookup_adjust_all f rs h :
  adjust_all f rs !! h = fmap (adj_range f) <$> rs !! h.
Proof. unfold adjust_all. by rewrite list_lookup_fmap. Qed.

(** [expandToTag] on an element of the document: the selection, when there
    is one, becomes a single new range over the element's contents. *)
Lemma expandToTag_InDoc p n w :
  get_node p (doc w) = Some n →
  ∃ w', expandToTag (InDoc p) w = Ok tt w' ∧
    doc w' = doc w ∧ this w' = this w ∧
    calls w' = calls w ++ [CallExpandToTag (InDoc p)] ∧
    match selection w with
    | None => selection w' = None ∧ ranges w' = ranges w
    | Some _ =>
        selection w' = Some [length (ranges w)] ∧
        ranges w' = ranges w ++ [Some (Range (Bp p 0) (Bp p (node_length n)))]
    end.
Proof.
  intros Hn. unfold expandToTag.
  erewrite bind_ok by reflexivity.
  unfold getSelection at 1. unfold mbind at 1, M_bind at 1. simpl.
  destruct (selection w) as [l|] eqn:Hsel.
  - erewrite bind_ok by reflexivity.
    erewrite bind_ok by reflexivity.
    unfold mbind, M_bind, selectNodeContents. simpl.
    rewrite lookup_app_r, Nat.sub_diag by done. simpl. rewrite Hn.
    unfold addRange. simpl.
    rewrite insert_app_r_alt, Nat.sub_diag by done. simpl.
    rewrite lookup_app_r, Nat.sub_diag by done. simpl.
    rewrite Hsel. simpl. eexists. split; [reflexivity|]. done.
  - eexists. split; [reflexivity|]. simpl. by rewrite Hsel.
Qed.

(** [expandToTag] on an element outside the document leaves the selection,
    when there is one, without any range. *)
Lemma expandToTag_Detached n w :
  ∃ w', expandToTag (Detached n) w = Ok tt w' ∧
    doc w' = doc w ∧ this w' = this w ∧
    selection w' = const [] <$> selection w.
Proof.
  unfold expandToTag.
  erewrite bind_ok by reflexivity.
  unfold getSelection at 1. unfold mbind at 1, M_bind at 1. simpl.
  destruct (selection w) as [l|] eqn:Hsel.
  - erewrite bind_ok by reflexivity.
    erewrite bind_ok by reflexivity.
    unfold mbind, M_bind, selectNodeContents. simpl.
    rewrite lookup_app_r, Nat.sub_diag by done. simpl.
    unfold addRange. simpl.
    rewrite insert_app_r_alt, Nat.sub_diag by done. simpl.
    rewrite lookup_app_r, Nat.sub_diag by done. simpl.
    eexists. split; [reflexivity|]. simpl. by rewrite Hsel.
  - eexists. split; [reflexivity|]. simpl. by rewrite Hsel.
Qed.


Lemma extractContents_ok h r d f np w :
  ranges w !! h = Some (Some r) →
  extract (doc w) r = Some (d, f, np) →
  extractContents h w =
    Ok (Some f)
       (set_ranges (<[h := Some (Range np np)]>
                      (adjust_all (adj_extract (doc w) r) (ranges w)))
          (set_doc d w)).
Proof. intros Hr He. unfold extractContents. by rewrite Hr, He. Qed.

Lemma length_insert_before h pp i ns w :
  length (ranges (insert_before h pp i ns w)) = length (ranges w).
Proof.
  unfold insert_before. simpl.
  destruct (adjust_all _ _ !! h) as [[r|]|]; [destruct (collapsed r)|..];
    rewrite ?length_insert; apply length_adjust_all.
Qed.

Lemma insertNode_ok h r c d' pp i w :
  ranges w !! h = Some (Some r) →
  insert_at (rstart r) (content_nodes c) (doc w) = Some (d', pp, i) →
  ∃ w', insertNode h c w = Ok (pp ++ [i]) w' ∧
    doc w' = d' ∧ selection w' = selection w ∧ this w' = this w ∧
    calls w' = calls w ∧ length (ranges w') = length (ranges w).
Proof.
  intros Hr Hi. unfold insertNode, insert_at in *. rewrite Hr.
  destruct (get_node (bnode (rstart r)) (doc w)) as [[dd | t cl a ks]|];
    [|injection Hi as <- <- <-|done].
  - destruct (split_last (bnode (rstart r))) as [[pp' i']|]; [|done].
    injection Hi as <- <- <-.
    eexists. split; [reflexivity|]. split_and!; try done.
    rewrite length_insert_before. simpl. apply length_adjust_all.
  - eexists. split; [reflexivity|]. split_and!; try done.
    apply length_insert_before.
Qed.

Lemma strip_prefix_app pp q : strip_prefix pp (pp ++ q) = Some q.
Proof.
  induction pp as [|i pp IH]; simpl; [by destruct q|].
  by rewrite decide_True.
Qed.

Lemma adj_remove_inside pp i o : adj_remove pp i (Bp (pp ++ [i]) o) = Bp pp i.
Proof.
  unfold adj_remove. simpl. rewrite strip_prefix_app. by rewrite decide_True.
Qed.

Lemma adj_insert_at pp i k : adj_insert pp i k (Bp pp i) = Bp pp i.
Proof.
  assert (strip_prefix pp pp = Some []) as Hs
    by (by rewrite <- (app_nil_r pp) at 2; rewrite strip_prefix_app).
  unfold adj_insert. simpl. rewrite Hs.
  rewrite decide_False by lia. done.
Qed.

(** [insertNode] on a range collapsed inside an element: the range ends up
    spanning what was inserted. *)
Lemma insertNode_collapsed h pp i c t cl a ks w :
  ranges w !! h = Some (Some (Range (Bp pp i) (Bp pp i))) →
  get_node pp (doc w) = Some (Elem t cl a ks) →
  ∃ w', insertNode h c w = Ok (pp ++ [i]) w' ∧
    doc w' = set_node pp (Elem t cl a (take i ks ++ content_nodes c ++ drop i ks))
               (doc w) ∧
    selection w' = selection w ∧ this w' = this w ∧ calls w' = calls w ∧
    length (ranges w') = length (ranges w) ∧
    ranges w' !! h =
      Some (Some (Range (Bp pp i) (Bp pp (i + length (content_nodes c))))).
Proof.
  intros Hr Hn. unfold insertNode. rewrite Hr. simpl. rewrite Hn.
  eexists. split; [reflexivity|].
  assert (h < length (ranges w)) by (by eapply lookup_lt_Some).
  unfold insert_before. simpl.
  rewrite lookup_adjust_all, Hr. simpl.
  unfold adj_range. simpl. rewrite adj_insert_at.
  unfold collapsed. simpl. rewrite bool_decide_eq_true_2 by done.
  split_and!; try done.
  - by rewrite (upd_node_here pp _ _ _ Hn).
  - by rewrite length_insert, length_adjust_all.
  - rewrite list_lookup_insert_eq; [done|by rewrite length_adjust_all].
Qed.

Lemma removeFromParent_ok pp i n w :
  get_node (pp ++ [i]) (doc w) = Some n →
  removeFromParent (InDoc (pp ++ [i])) w =
    Ok tt (set_ranges (adjust_all (adj_remove pp i) (ranges w))
             (set_doc (upd_node pp (remove_kid i) (doc w)) w)).
Proof.
  intros Hn. unfold removeFromParent. by rewrite split_last_snoc, Hn.
Qed.


(** *** Searching the ancestors *)

Lemma is_tag_label tn cn n n' :
  label n' = label n → is_tag tn cn n' = is_tag tn cn n.
Proof. destruct n, n'; simpl; try done. by intros [= -> ->]. Qed.

Lemma is_tag_elem tn cn n :
  is_tag tn cn n = true → ∃ t cl a ks, n = Elem t cl a ks.
Proof. destruct n as [d | t cl a ks]; [done | by exists t, cl, a, ks]. Qed.

Lemma find_up_set_node tn cn c n n' doc :
  get_node c doc = Some n → label n' = label n →
  find_up tn cn c (set_node c n' doc) = find_up tn cn c doc.
Proof.
  intros Hn Hl. revert doc Hn; induction c as [|i c IH]; intros doc Hn;
    simpl in *.
  - injection Hn as ->. by rewrite (is_tag_label tn cn n n').
  - destruct doc as [d | t cl a ks]; [done|]. simpl.
    destruct (ks !! i) as [k|] eqn:Hk; [|done].
    rewrite list_lookup_alter_eq, Hk. simpl. by rewrite (IH k Hn).
Qed.

Lemma find_up_None_prefix tn cn p q doc :
  find_up tn cn (p ++ q) doc = None → find_up tn cn p doc = None.
Proof.
  revert doc; induction p as [|i p IH]; intros doc H; simpl in *.
  - destruct q as [|j q]; simpl in H; [done|].
    destruct (children doc !! j) as [k|]; [|done].
    by destruct (find_up tn cn q k).
  - destruct (children doc !! i) as [k|]; [|done].
    destruct (find_up tn cn (p ++ q) k) eqn:Hk; [done|].
    by rewrite (IH k Hk).
Qed.

Lemma find_up_self tn cn p m doc :
  get_node p doc = Some m → is_tag tn cn m = true →
  find_up tn cn p doc = Some p.
Proof.
  revert doc; induction p as [|i p IH]; intros doc Hm Ht; simpl in *.
  - injection Hm as ->. by rewrite Ht.
  - destruct doc as [d | t cl a ks]; [done|]. simpl.
    destruct (ks !! i) as [k|]; [|done]. by rewrite (IH k Hm Ht).
Qed.


Lemma find_up_sound tn cn p q doc :
  find_up tn cn p doc = Some q →
  ∃ m, get_node q doc = Some m ∧ is_tag tn cn m = true.
Proof.
  revert q doc; induction p as [|i p IH]; intros q doc H; simpl in *.
  - destruct (is_tag tn cn doc) eqn:Ht; [|done].
    injection H as <-. by exists doc.
  - destruct (children doc !! i) as [k|] eqn:Hk.
    + destruct (find_up tn cn p k) as [q'|] eqn:Hq.
      * injection H as <-. destruct (IH q' k Hq) as (m & Hm & Ht).
        exists m. split; [|done]. simpl.
        destruct doc as [d | t cl a ks]; [done|]. simpl in Hk. by rewrite Hk.
      * destruct (is_tag tn cn doc) eqn:Ht; [|done].
        injection H as <-. by exists doc.
    + destruct (is_tag tn cn doc) eqn:Ht; [|done].
      injection H as <-. by exists doc.
Qed.

Lemma findParentTag_run tn cn w :
  findParentTag tn cn w =
    Ok (selection_tag tn cn w)
       (set_calls (calls w ++ [CallFindParentTag tn cn]) w).
Proof. reflexivity. Qed.


(** *** Which calls a run records *)

Lemma entries_app l1 l2 : entries (l1 ++ l2) = entries l1 ++ entries l2.
Proof. unfold entries. apply filter_app. Qed.

Lemma silent_ret {A} (a : A) : silent (mret a).
Proof. intros w. exists []. by rewrite app_nil_r. Qed.

Lemma silent_bind {A B} (m : M A) (f : A → M B) :
  silent m → (∀ a, silent (f a)) → silent (m ≫= f).
Proof.
  intros Hm Hf w. destruct (Hm w) as (l1 & H1 & E1).
  unfold mbind, M_bind. destruct (m w) as [a w1 | e w1]; simpl in *.
  - destruct (Hf a w1) as (l2 & H2 & E2).
    exists (l1 ++ l2). rewrite H2, H1, <- app_assoc. split; [done|].
    by rewrite entries_app, E1, E2.
  - by exists l1.
Qed.

(** A primitive that leaves the record alone. *)
Lemma silent_quiet {A} (m : M A) :
  (∀ w, calls (final (m w)) = calls w) → silent m.
Proof. intros H w. exists []. by rewrite app_nil_r. Qed.

Lemma silent_record c : is_entry c = false → silent (record c).
Proof.
  intros Hc w. exists [c]. split; [done|].
  unfold entries. rewrite filter_cons_False by (by rewrite Hc). done.
Qed.

Lemma silent_getSelection : silent getSelection.
Proof.
  apply silent_quiet. intros w. unfold getSelection. by destruct (selection w).
Qed.

Lemma silent_getRangeAt sel i : silent (getRangeAt sel i).
Proof.
  apply silent_quiet. intros w. unfold getRangeAt.
  by destruct (sel_ranges w !! i).
Qed.

Lemma silent_removeAllRanges sel : silent (removeAllRanges sel).
Proof. by apply silent_quiet. Qed.

Lemma silent_addRange sel h : silent (addRange sel h).
Proof.
  apply silent_quiet. intros w. unfold addRange.
  destruct (ranges w !! h) as [[r|]|]; try done.
  by destruct (selection w) as [[|? ?]|].
Qed.

Lemma silent_createRange : silent createRange.
Proof. by apply silent_quiet. Qed.

Lemma silent_selectNodeContents h e : silent (selectNodeContents h e).
Proof.
  apply silent_quiet. intros w. unfold selectNodeContents.
  destruct (ranges w !! h); [|done].
  destruct e as [p | n]; [|done]. by destruct (get_node p (doc w)).
Qed.

Lemma silent_extractContents h : silent (extractContents h).
Proof.
  apply silent_quiet. intros w. unfold extractContents.
  destruct (ranges w !! h) as [[r|]|]; try done.
  by destruct (extract (doc w) r) as [[[d f] np]|].
Qed.

Lemma silent_insertNode h c : silent (insertNode h c).
Proof.
  apply silent_quiet. intros w. unfold insertNode.
  destruct (ranges w !! h) as [[r|]|]; try done.
  destruct (get_node _ _) as [[d | t cl a ks]|]; try done.
  by destruct (split_last _) as [[pp i]|].
Qed.

Lemma silent_removeFromParent e : silent (removeFromParent e).
Proof.
  apply silent_quiet. intros w. unfold removeFromParent.
  destruct e as [p | n]; [|done].
  destruct (split_last p) as [[pp i]|]; [|done].
  by destruct (get_node p (doc w)).
Qed.

Lemma silent_appendChild n f : silent (appendChild n f).
Proof. destruct f; [apply silent_ret | by apply silent_quiet]. Qed.

Lemma silent_expandToTag e : silent (expandToTag e).
Proof.
  unfold expandToTag.
  apply silent_bind; [by apply silent_record|]. intros _.
  apply silent_bind; [apply silent_getSelection|]. intros [sel|];
    [|apply silent_ret].
  apply silent_bind; [apply silent_removeAllRanges|]. intros _.
  apply silent_bind; [apply silent_createRange|]. intros h.
  apply silent_bind; [apply silent_selectNodeContents|]. intros _.
  apply silent_addRange.
Qed.


(** *** What [findParentTag] reports *)

Lemma selection_tag_sound tn cn w e :
  selection_tag tn cn w = Some e →
  ∃ q m, e = InDoc q ∧ get_node q (doc w) = Some m ∧ is_tag tn cn m = true.
Proof.
  unfold selection_tag. destruct (sel_ranges w) as [|h ?]; [done|].
  destruct (ranges w !! h) as [[r|]|]; try done.
  destruct (find_up tn cn (bnode (rstart r)) (doc w)) as [q|] eqn:Hs.
  - intros [= <-]. destruct (find_up_sound _ _ _ _ _ Hs) as (m & ? & ?).
    by exists q, m.
  - destruct (find_up tn cn (bnode (rend r)) (doc w)) as [q|] eqn:He; [|done].
    intros [= <-]. destruct (find_up_sound _ _ _ _ _ He) as (m & ? & ?).
    by exists q, m.
Qed.




Lemma selection_tag_selected tn cn w r :
  selected w = Some r →
  selection_tag tn cn w =
    match find_up tn cn (bnode (rstart r)) (doc w) with
    | Some q => Some (InDoc q)
    | None => InDoc <$> find_up tn cn (bnode (rend r)) (doc w)
    end.
Proof.
  unfold selected, selection_tag. destruct (sel_ranges w) as [|h ?]; [done|].
  destruct (ranges w !! h) as [[r'|]|]; simpl; try done. by intros [= ->].
Qed.

Lemma selected_single w h r :
  selection w = Some [h] → ranges w !! h = Some (Some r) →
  selected w = Some r.
Proof. intros Hs Hr. unfold selected, sel_ranges. by rewrite Hs; simpl; rewrite Hr. Qed.

End HostFacts.

(** ** The tool's methods *)

Module UnderlineFacts.
Import Dom Host Underline DomFacts HostFacts.

(** *** The scenario of spec section 8, run on the model *)

Example scenario_wrap :
  ∃ w', wrap 0 (Scenario.editing Scenario.page Scenario.word) = Ok tt w' ∧
    doc w' = Scenario.page_underlined ∧
    outerHTML (doc w') =
      "<div>npm <u class=" +:+ dquote +:+ "cdx-underline" +:+ dquote +:+
      ">init</u> command</div>" ∧
    selected w' = Some (Range (Bp [1] 0) (Bp [1] 1)).
Proof.
  exists (final (wrap 0 (Scenario.editing Scenario.page Scenario.word))).
  by vm_compute.
Qed.

Example scenario_checkState :
  ∃ w', checkState (Scenario.editing Scenario.page_underlined Scenario.inside)
        = Ok true w'.
Proof.
  exists (final (checkState
                   (Scenario.editing Scenario.page_underlined Scenario.inside))).
  by vm_compute.
Qed.

Example scenario_unwrap :
  ∃ w', unwrap (InDoc [1])
          (Scenario.editing Scenario.page_underlined Scenario.inside) = Ok tt w' ∧
    outerHTML (doc w') = "<div>npm init command</div>" ∧
    selected w' = Some (Range (Bp [] 1) (Bp [] 2)) ∧
    range_text (doc w') (Range (Bp [] 1) (Bp [] 2)) = "init".
Proof.
  exists (final (unwrap (InDoc [1])
                   (Scenario.editing Scenario.page_underlined Scenario.inside))).
  by vm_compute.
Qed.

(** A range that cuts through elements: from inside "ab" to inside the
    [i] element nested in the [b] element. *)
Example extract_across_elements :
  extract
    (Elem "div" [] []
       [Text "ab";
        Elem "b" [] [] [Text "cd"; Elem "i" [] [] [Text "ef"]; Text "gh"];
        Text "ij"])
    (Range (Bp [0] 1) (Bp [1; 1; 0] 1)) =
  Some (Elem "div" [] []
          [Text "a";
           Elem "b" [] [] [Elem "i" [] [] [Text "f"]; Text "gh"];
           Text "ij"],
        [Text "b"; Elem "b" [] [] [Text "cd"; Elem "i" [] [] [Text "e"]]],
        Bp [] 1).
Proof. by vm_compute. Qed.

(** The wrapper element [wrap] builds around a fragment. *)
Lemma wrapper_built f :
  append_kids (elem_classList_add CSS (new_element tag)) f =
  Elem "u" ["cdx-underline"] [] f.
Proof. reflexivity. Qed.

Lemma wrapper_is_tag f : is_tag tag CSS (Elem "u" ["cdx-underline"] [] f) = true.
Proof. reflexivity. Qed.

(** What [wrap] does to a valid range of a document. *)
Lemma wrap_spec h r w :
  ranges w !! h = Some (Some r) →
  valid_range (doc w) r = true →
  is_elem (doc w) = true →
  ∃ pp i P t cl a L R f d0 np w',
    wrap h w = Ok tt w' ∧
    extract (doc w) r = Some (d0, f, np) ∧
    get_node pp (doc w) = Some P ∧
    label P = Some (t, cl) ∧
    (∃ q, bnode (rstart r) = pp ++ q) ∧
    doc w' = set_node pp
               (Elem t cl a (L ++ [Elem "u" ["cdx-underline"] [] f] ++ R))
               (doc w) ∧
    length L = i ∧
    left_of pp (doc w) +:+ texts L =
      text_before (bnode (rstart r)) (boff (rstart r)) (doc w) ∧
    texts R +:+ right_of pp (doc w) =
      text_after (bnode (rend r)) (boff (rend r)) (doc w) ∧
    this w' = this w ∧
    calls w' = calls w ++ [CallWrap; CallExpandToTag (InDoc (pp ++ [i]))] ∧
    match selection w with
    | None => selection w' = None
    | Some _ =>
        selection w' = Some [length (ranges w)] ∧
        ranges w' !! length (ranges w) =
          Some (Some (Range (Bp (pp ++ [i]) 0) (Bp (pp ++ [i]) (length f))))
    end.
Proof.
  intros Hr Hv Hd.
  destruct (extract_spec (doc w) r Hv)
    as (c & n & n' & f & o' & Hex & Hn & Hl & Ho & [rs Hrs] & Hb & Ha & _).
  set (d0 := set_node c n' (doc w)) in *.
  assert (get_node c d0 = Some n') as Hn' by (by eapply get_set_node).
  assert (is_elem d0 = true) as Hd0.
  { rewrite <- Hd. apply is_elem_label. by eapply label_set_node. }
  destruct (insert_at_spec c o' [Elem "u" ["cdx-underline"] [] f] d0 n' Hn' Ho Hd0)
    as (pp & q & i & P0 & t & cl & a & L & R & Hins & -> & HP0 & HlP0 & Hi & HL & HR).
  (* the parent of the wrapper, before the extraction *)
  destruct (get_node pp (doc w)) as [P|] eqn:HP;
    [|by rewrite get_node_app, HP in Hn].
  assert (get_node q P = Some n) as HqP by (by rewrite get_node_app, HP in Hn).
  assert (d0 = set_node pp (set_node q n' P) (doc w)) as Hd0eq
    by (by apply set_node_app).
  assert (P0 = set_node q n' P) as ->.
  { rewrite Hd0eq in HP0. rewrite (get_set_node pp P _ _ HP) in HP0.
    by injection HP0. }
  assert (label P = Some (t, cl)) as HlP.
  { rewrite <- HlP0. symmetry. by eapply label_set_node. }
  (* running the method *)
  set (w0 := set_calls (calls w ++ [CallWrap]) w).
  set (w1 := set_ranges (<[h := Some (Range (Bp (pp ++ q) o') (Bp (pp ++ q) o'))]>
                 (adjust_all (adj_extract (doc w0) r) (ranges w0)))
               (set_doc d0 w0)).
  assert (ranges w1 !! h = Some (Some (Range (Bp (pp ++ q) o') (Bp (pp ++ q) o'))))
    as Hr1.
  { simpl. apply list_lookup_insert_eq. rewrite length_adjust_all.
    by eapply lookup_lt_Some. }
  destruct (insertNode_ok h _ (OneNode (Elem "u" ["cdx-underline"] [] f))
              _ pp i w1 Hr1 Hins)
    as (w2 & Hrun2 & Hdoc2 & Hsel2 & Hthis2 & Hcalls2 & Hlen2).
  assert (get_node (pp ++ [i]) (doc w2) = Some (Elem "u" ["cdx-underline"] [] f))
    as Hu.
  { rewrite Hdoc2.
    erewrite get_node_snoc by (by eapply get_set_node). simpl.
    rewrite <- Hi. by rewrite list_lookup_middle. }
  destruct (expandToTag_InDoc (pp ++ [i]) _ w2 Hu)
    as (w3 & Hrun3 & Hdoc3 & Hthis3 & Hcalls3 & Hsel3).
  exists pp, i, P, t, cl, a, L, R, f, d0, (Bp (pp ++ q) o'), w3.
  split_and!; try done.
  - unfold wrap.
    erewrite bind_ok by reflexivity.
    erewrite bind_ok by reflexivity.
    erewrite bind_ok by (by apply (extractContents_ok h r d0 f (Bp (pp ++ q) o'))).
    erewrite bind_ok by reflexivity.
    rewrite wrapper_built.
    erewrite bind_ok by exact Hrun2.
    exact Hrun3.
  - by exists (q ++ rs); rewrite app_assoc.
  - rewrite Hdoc3, Hdoc2, Hd0eq. by eapply set_set_node.
  - rewrite <- Hb.
    rewrite (text_before_app pp q o' _ d0)
      by (by rewrite Hd0eq; eapply get_set_node).
    rewrite Hd0eq, (left_of_set_node pp P _ _ HP). by rewrite HL.
  - rewrite <- Ha.
    rewrite (text_after_app pp q o' _ d0)
      by (by rewrite Hd0eq; eapply get_set_node).
    rewrite Hd0eq, (right_of_set_node pp P _ _ HP). by rewrite HR.
  - by rewrite Hthis3, Hthis2.
  - rewrite Hcalls3, Hcalls2. simpl. by rewrite <- app_assoc.
  - rewrite Hsel2 in Hsel3. simpl in Hsel3.
    destruct (selection w) as [l|]; [|by destruct Hsel3].
    destruct Hsel3 as [Hs3 Hr3].
    assert (length (ranges w2) = length (ranges w)) as Hlen.
    { rewrite Hlen2. simpl. by rewrite length_insert, length_adjust_all. }
    rewrite Hlen in Hs3. split; [done|].
    rewrite Hr3, <- Hlen. by rewrite lookup_app_r, Nat.sub_diag by done.
Qed.


(** What [unwrap] does to an element that has a parent. *)
Lemma unwrap_spec pp i tp cp ap kps t c a ks w :
  get_node pp (doc w) = Some (Elem tp cp ap kps) →
  kps !! i = Some (Elem t c a ks) →
  ∃ w', unwrap (InDoc (pp ++ [i])) w = Ok tt w' ∧
    this w' = this w ∧
    calls w' = calls w ++ [CallUnwrap; CallExpandToTag (InDoc (pp ++ [i]))] ∧
    match selection w with
    | None => doc w' = doc w ∧ selection w' = None
    | Some _ =>
        doc w' = set_node pp
                   (Elem tp cp ap (take i kps ++ ks ++ drop (S i) kps)) (doc w) ∧
        selection w' = Some [length (ranges w)] ∧
        ranges w' !! length (ranges w) =
          Some (Some (Range (Bp pp i) (Bp pp (i + length ks))))
    end.
Proof.
  intros HP Hk.
  set (w0 := set_calls (calls w ++ [CallUnwrap]) w).
  assert (get_node (pp ++ [i]) (doc w0) = Some (Elem t c a ks)) as Hw
    by (by erewrite get_node_snoc by exact HP).
  destruct (expandToTag_InDoc (pp ++ [i]) _ w0 Hw)
    as (w1 & Hrun1 & Hdoc1 & Hthis1 & Hcalls1 & Hsel1).
  unfold unwrap.
  erewrite bind_ok by reflexivity.
  erewrite bind_ok by exact Hrun1.
  unfold getSelection at 1. unfold mbind at 1, M_bind at 1.
  simpl in Hsel1.
  destruct (selection w) as [l|] eqn:Hsel.
  - destruct Hsel1 as [Hs1 Hr1]. rewrite Hs1.
    set (h := length (ranges w)) in *.
    assert (ranges w1 !! h =
            Some (Some (Range (Bp (pp ++ [i]) 0) (Bp (pp ++ [i]) (length ks)))))
      as Hh1 by (by rewrite Hr1, lookup_app_r, Nat.sub_diag by done).
    assert (getRangeAt TheSelection 0 w1 = Ok (Some h) w1) as Hget
      by (by unfold getRangeAt, sel_ranges; rewrite Hs1).
    erewrite bind_ok by exact Hget.
    cbv beta iota.
    assert (get_node (pp ++ [i]) (doc w1) = Some (Elem t c a ks)) as Hw1
      by (by rewrite Hdoc1).
    erewrite bind_ok
      by (by eapply extractContents_ok; [exact Hh1 | eapply extract_contents]).
    cbv beta iota.
    set (d1 := set_node (pp ++ [i]) (Elem t c a []) (doc w1)).
    set (w2 := set_ranges _ (set_doc d1 w1)).
    assert (h < length (ranges w1)) as Hlt by (by eapply lookup_lt_Some).
    assert (ranges w2 !! h = Some (Some (Range (Bp (pp ++ [i]) 0) (Bp (pp ++ [i]) 0))))
      as Hh2.
    { simpl. apply list_lookup_insert_eq. by rewrite length_adjust_all. }
    assert (get_node (pp ++ [i]) d1 = Some (Elem t c a [])) as Hd1
      by (by eapply get_set_node).
    erewrite bind_ok by (by apply (removeFromParent_ok pp i (Elem t c a []))).
    set (w3 := set_ranges _ (set_doc _ w2)).
    assert (ranges w3 !! h = Some (Some (Range (Bp pp i) (Bp pp i)))) as Hh3.
    { simpl. rewrite lookup_adjust_all. simpl in Hh2. rewrite Hh2. simpl.
      unfold adj_range. simpl. by rewrite adj_remove_inside. }
    assert (i < length kps) as Hi by (by eapply lookup_lt_Some).
    assert (doc w3 = set_node pp (Elem tp cp ap (take i kps ++ drop (S i) kps))
                       (doc w)) as Hdoc3.
    { simpl. unfold d1. rewrite Hdoc1. simpl.
      rewrite (set_node_app pp [i] _ _ _ HP). simpl.
      erewrite upd_node_here by (by eapply get_set_node).
      rewrite (set_set_node pp _ _ _ _ HP). simpl.
      by rewrite delete_take_drop, take_alter_ge, drop_alter_lt by lia. }
    destruct (insertNode_collapsed h pp i (Fragment ks) tp cp ap
                (take i kps ++ drop (S i) kps) w3 Hh3)
      as (w4 & Hrun4 & Hdoc4 & Hsel4 & Hthis4 & Hcalls4 & Hlen4 & Hh4).
    { rewrite Hdoc3. by eapply get_set_node. }
    erewrite bind_ok by exact Hrun4.
    erewrite bind_ok by reflexivity.
    unfold addRange. simpl. rewrite Hh4, Hsel4. simpl. rewrite Hs1. simpl.
    eexists. split; [reflexivity|]. simpl.
    split_and!; try done.
    + by rewrite Hthis4.
    + rewrite Hcalls4. simpl. rewrite Hcalls1. unfold w0. simpl.
      by rewrite <- app_assoc.
    + rewrite Hdoc4, Hdoc3, (set_set_node pp _ _ _ _ HP).
      rewrite take_app_length', drop_app_length'
        by (rewrite length_take; lia). done.
  - destruct Hsel1 as [Hs1 Hr1]. rewrite Hs1.
    eexists. split; [reflexivity|]. split_and!; try done.
    rewrite Hcalls1. unfold w0. simpl. by rewrite <- app_assoc.
Qed.


(** [unwrap] on the root of the tree, which has no parent to be removed
    from: its contents are taken out and put back. *)
Lemma unwrap_root_spec t c a ks w :
  doc w = Elem t c a ks →
  ∃ w', unwrap (InDoc []) w = Ok tt w' ∧
    this w' = this w ∧ doc w' = doc w ∧
    calls w' = calls w ++ [CallUnwrap; CallExpandToTag (InDoc [])] ∧
    match selection w with
    | None => selection w' = None
    | Some _ =>
        selection w' = Some [length (ranges w)] ∧
        ranges w' !! length (ranges w) =
          Some (Some (Range (Bp [] 0) (Bp [] (length ks))))
    end.
Proof.
  intros Hdoc.
  set (w0 := set_calls (calls w ++ [CallUnwrap]) w).
  assert (get_node [] (doc w0) = Some (Elem t c a ks)) as Hw
    by (by simpl; rewrite Hdoc).
  destruct (expandToTag_InDoc [] _ w0 Hw)
    as (w1 & Hrun1 & Hdoc1 & Hthis1 & Hcalls1 & Hsel1).
  unfold unwrap.
  erewrite bind_ok by reflexivity.
  erewrite bind_ok by exact Hrun1.
  unfold getSelection at 1. unfold mbind at 1, M_bind at 1.
  simpl in Hsel1.
  destruct (selection w) as [l|] eqn:Hsel.
  - destruct Hsel1 as [Hs1 Hr1]. rewrite Hs1.
    set (h := length (ranges w)) in *.
    assert (ranges w1 !! h = Some (Some (Range (Bp [] 0) (Bp [] (length ks)))))
      as Hh1 by (by rewrite Hr1, lookup_app_r, Nat.sub_diag by done).
    assert (getRangeAt TheSelection 0 w1 = Ok (Some h) w1) as Hget
      by (by unfold getRangeAt, sel_ranges; rewrite Hs1).
    erewrite bind_ok by exact Hget.
    cbv beta iota.
    assert (get_node [] (doc w1) = Some (Elem t c a ks)) as Hw1
      by (by rewrite Hdoc1).
    erewrite bind_ok
      by (by eapply extractContents_ok; [exact Hh1 | eapply extract_contents]).
    cbv beta iota.
    set (w2 := set_ranges _ (set_doc _ w1)).
    assert (h < length (ranges w1)) as Hlt by (by eapply lookup_lt_Some).
    assert (ranges w2 !! h = Some (Some (Range (Bp [] 0) (Bp [] 0)))) as Hh2.
    { simpl. apply list_lookup_insert_eq. by rewrite length_adjust_all. }
    erewrite bind_ok by reflexivity.
    destruct (insertNode_collapsed h [] 0 (Fragment ks) t c a [] w2 Hh2)
      as (w4 & Hrun4 & Hdoc4 & Hsel4 & Hthis4 & Hcalls4 & Hlen4 & Hh4);
      [done|].
    erewrite bind_ok by exact Hrun4.
    erewrite bind_ok by reflexivity.
    unfold addRange. simpl. rewrite Hh4, Hsel4. simpl. rewrite Hs1. simpl.
    eexists. split; [reflexivity|]. simpl.
    split_and!; try done.
    + by rewrite Hthis4.
    + rewrite Hdoc4. simpl. by rewrite app_nil_r.
    + rewrite Hcalls4. simpl. rewrite Hcalls1. unfold w0. simpl.
      by rewrite <- app_assoc.
  - destruct Hsel1 as [Hs1 Hr1]. rewrite Hs1.
    eexists. split; [reflexivity|]. split_and!; try done.
    rewrite Hcalls1. unfold w0. simpl. by rewrite <- app_assoc.
Qed.


(** *** Text is preserved *)

Lemma wrap_text h r w :
  ranges w !! h = Some (Some r) →
  valid_range (doc w) r = true →
  is_elem (doc w) = true →
  ∃ w', wrap h w = Ok tt w' ∧ textContent (doc w') = textContent (doc w).
Proof.
  intros Hr Hv Hd.
  destruct (wrap_spec h r w Hr Hv Hd)
    as (pp & i & P & t & cl & a & L & R & f & d0 & np & w' & Hrun & Hex & HP
        & HlP & Hq & Hdoc & Hi & HL & HR & _).
  destruct (extract_spec (doc w) r Hv)
    as (c & n & n' & f' & o' & Hex' & _ & _ & _ & _ & _ & _ & Htext).
  rewrite Hex in Hex'. injection Hex' as _ <- _.
  exists w'. split; [done|].
  rewrite Hdoc, (textContent_set_node pp P _ _ HP), textContent_Elem.
  rewrite !texts_app, texts_singleton, textContent_Elem.
  rewrite Htext, <- HL, <- HR. by rewrite !StrFacts.app_assoc.
Qed.

Lemma unwrap_kid_text pp i tp cp ap kps t c a ks doc :
  get_node pp doc = Some (Elem tp cp ap kps) →
  kps !! i = Some (Elem t c a ks) →
  textContent
    (set_node pp (Elem tp cp ap (take i kps ++ ks ++ drop (S i) kps)) doc) =
  textContent doc.
Proof.
  intros HP Hk.
  rewrite (textContent_set_node pp _ _ _ HP), (textContent_context pp _ _ HP).
  rewrite !textContent_Elem, (texts_lookup i _ kps Hk), !texts_app.
  by rewrite textContent_Elem.
Qed.


(** *** Method entries *)

Lemma wrap_entries h w :
  ∃ l, calls (final (wrap h w)) = calls w ++ CallWrap :: l ∧ entries l = [].
Proof.
  unfold wrap. erewrite bind_ok by reflexivity.
  match goal with |- context [final (?m ?w0)] =>
    assert (silent m) as Hs end.
  { apply silent_bind; [apply silent_ret|]. intros u.
    apply silent_bind; [apply silent_extractContents|]. intros f.
    apply silent_bind; [apply silent_appendChild|]. intros u'.
    apply silent_bind; [apply silent_insertNode|]. intros p.
    apply silent_expandToTag. }
  destruct (Hs (set_calls (calls w ++ [CallWrap]) w)) as (l & Hl & El).
  exists l. split; [|done]. rewrite Hl. simpl. by rewrite <- app_assoc.
Qed.

Lemma unwrap_entries e w :
  ∃ l, calls (final (unwrap e w)) = calls w ++ CallUnwrap :: l ∧ entries l = [].
Proof.
  unfold unwrap. erewrite bind_ok by reflexivity.
  match goal with |- context [final (?m ?w0)] =>
    assert (silent m) as Hs end.
  { apply silent_bind; [apply silent_expandToTag|]. intros _.
    apply silent_bind; [apply silent_getSelection|]. intros [sel|];
      [|apply silent_ret].
    apply silent_bind; [apply silent_getRangeAt|]. intros [h|];
      [|apply silent_ret].
    apply silent_bind; [apply silent_extractContents|]. intros [f|];
      [|apply silent_ret].
    apply silent_bind; [apply silent_removeFromParent|]. intros _.
    apply silent_bind; [apply silent_insertNode|]. intros _.
    apply silent_bind; [apply silent_removeAllRanges|]. intros _.
    apply silent_addRange. }
  destruct (Hs (set_calls (calls w ++ [CallUnwrap]) w)) as (l & Hl & El).
  exists l. split; [|done]. rewrite Hl. simpl. by rewrite <- app_assoc.
Qed.


(** *** What a call of [surround] with a Range object does *)

Lemma surround_run h w :
  surround (Some h) w =
    match selection_tag tag CSS w with
    | Some termWrapper =>
        unwrap termWrapper
          (set_calls (calls w ++ [CallFindParentTag tag CSS]) w)
    | None => wrap h (set_calls (calls w ++ [CallFindParentTag tag CSS]) w)
    end.
Proof.
  unfold surround.
  rewrite (bind_ok _ _ _ _ _ (findParentTag_run tag CSS w)).
  by destruct (selection_tag tag CSS w).
Qed.

Lemma surround_entries h w :
  ∃ l,
    calls (final (surround (Some h) w)) =
      calls w ++ CallFindParentTag tag CSS :: l ∧
    entries l =
      [match selection_tag tag CSS w with
       | Some _ => CallUnwrap
       | None => CallWrap
       end].
Proof.
  rewrite surround_run.
  set (wq := set_calls (calls w ++ [CallFindParentTag tag CSS]) w).
  destruct (selection_tag tag CSS w) as [e|].
  - destruct (unwrap_entries e wq) as (l & Hl & El).
    exists (CallUnwrap :: l). rewrite Hl. unfold wq. simpl.
    rewrite <- app_assoc. split; [done|].
    change (CallUnwrap :: l) with ([CallUnwrap] ++ l).
    by rewrite entries_app, El.
  - destruct (wrap_entries h wq) as (l & Hl & El).
    exists (CallWrap :: l). rewrite Hl. unfold wq. simpl.
    rewrite <- app_assoc. split; [done|].
    change (CallWrap :: l) with ([CallWrap] ++ l).
    by rewrite entries_app, El.
Qed.

(** *** [unwrap] on any element of the document *)

Lemma path_cases (p : path) : p = [] ∨ ∃ pp i, p = pp ++ [i].
Proof.
  destruct (split_last p) as [[pp i]|] eqn:H.
  - right. exists pp, i. by apply split_last_Some.
  - left. by apply split_last_None.
Qed.

Lemma unwrap_element p m l w :
  get_node p (doc w) = Some m → is_elem m = true → selection w = Some l →
  ∃ h1 r1 w1,
    unwrap (InDoc p) w = Ok tt w1 ∧
    textContent (doc w1) = textContent (doc w) ∧
    is_elem (doc w1) = is_elem (doc w) ∧
    this w1 = this w ∧
    selection w1 = Some [h1] ∧
    ranges w1 !! h1 = Some (Some r1) ∧
    valid_range (doc w1) r1 = true.
Proof.
  intros Hm He Hsel. destruct m as [d | t c a ks]; [done|].
  destruct (path_cases p) as [-> | (pp & i & ->)].
  - simpl in Hm. injection Hm as Hdoc.
    destruct (unwrap_root_spec t c a ks w Hdoc)
      as (w1 & Hrun & Hthis & Hdoc1 & _ & Hs).
    rewrite Hsel in Hs. destruct Hs as [Hs Hr].
    exists (length (ranges w)), (Range (Bp [] 0) (Bp [] (length ks))), w1.
    split_and!; try done; try by rewrite Hdoc1.
    apply (valid_range_kids [] 0 (length ks) (Elem t c a ks)); [|done].
    by rewrite Hdoc1, Hdoc.
  - rewrite get_node_app in Hm.
    destruct (get_node pp (doc w)) as [P|] eqn:HP; [|done]. simpl in Hm.
    destruct P as [? | tp cp ap kps]; [done|].
    destruct (kps !! i) as [k|] eqn:Hk; [|done]. simpl in Hm.
    injection Hm as ->.
    destruct (unwrap_spec pp i tp cp ap kps t c a ks w HP Hk)
      as (w1 & Hrun & Hthis & _ & Hs).
    rewrite Hsel in Hs. destruct Hs as (Hdoc1 & Hs & Hr).
    exists (length (ranges w)), (Range (Bp pp i) (Bp pp (i + length ks))), w1.
    assert (i < length kps) by (by eapply lookup_lt_Some).
    split_and!; try done.
    + rewrite Hdoc1. by eapply unwrap_kid_text.
    + rewrite Hdoc1. apply is_elem_label. by eapply label_set_node.
    + eapply valid_range_kids.
      * rewrite Hdoc1. by eapply get_set_node.
      * simpl. rewrite !length_app, length_take, length_drop. lia.
Qed.

(** With no selection object, [unwrap] stops after asking for the
    expansion. *)
Lemma unwrap_absent e w :
  selection w = None →
  unwrap e w =
    Ok tt (set_calls (calls w ++ [CallUnwrap; CallExpandToTag e]) w).
Proof.
  intros Hsel. unfold unwrap, expandToTag.
  erewrite bind_ok by reflexivity.
  erewrite bind_ok.
  2:{ erewrite bind_ok by reflexivity.
      erewrite bind_ok by (by unfold getSelection; simpl; rewrite Hsel).
      reflexivity. }
  erewrite bind_ok by (by unfold getSelection; simpl; rewrite Hsel).
  simpl. by rewrite <- app_assoc.
Qed.

(** [unwrap] on an element outside the document, with a selection object
    present: [expandToTag] leaves the selection without a range, and
    [getRangeAt(0)] throws.  [getRangeAt] never yields [null], whatever the
    selection holds. *)
Lemma getRangeAt_never_null sel i w w' : getRangeAt sel i w ≠ Ok None w'.
Proof. unfold getRangeAt. by destruct (sel_ranges w !! i). Qed.

Lemma unwrap_detached_throws n l w :
  selection w = Some l →
  ∃ w', unwrap (Detached n) w = Throw IndexSizeError w' ∧
    doc w' = doc w ∧ selection w' = Some [].
Proof.
  intros Hsel.
  destruct (expandToTag_Detached n (set_calls (calls w ++ [CallUnwrap]) w))
    as (w1 & Hrun1 & Hdoc1 & _ & Hs1).
  simpl in Hs1, Hdoc1. rewrite Hsel in Hs1. simpl in Hs1.
  exists w1. split; [|done]. unfold unwrap.
  erewrite bind_ok by reflexivity.
  erewrite bind_ok by exact Hrun1.
  erewrite bind_ok by (by unfold getSelection; rewrite Hs1).
  apply bind_throw. unfold getRangeAt, sel_ranges. by rewrite Hs1.
Qed.

(** *** One call of [surround] keeps a well-formed selection well-formed *)

Lemma surround_ok h r w :
  selection w = Some [h] →
  ranges w !! h = Some (Some r) →
  valid_range (doc w) r = true →
  is_elem (doc w) = true →
  ∃ h' r' w',
    surround (Some h) w = Ok tt w' ∧
    textContent (doc w') = textContent (doc w) ∧
    selection w' = Some [h'] ∧
    ranges w' !! h' = Some (Some r') ∧
    valid_range (doc w') r' = true ∧
    is_elem (doc w') = true.
Proof.
  intros Hsel Hr Hv Hd. unfold surround.
  rewrite (bind_ok _ _ _ _ _ (findParentTag_run tag CSS w)).
  set (wq := set_calls _ w).
  destruct (selection_tag tag CSS w) as [e|] eqn:Htag.
  - destruct (selection_tag_sound _ _ _ _ Htag) as (q & m & -> & Hm & Ht).
    destruct (is_tag_elem _ _ _ Ht) as (t & cl & a & ks & ->).
    destruct (unwrap_element q _ [h] wq Hm eq_refl Hsel)
      as (h1 & r1 & w1 & Hrun & Htext & Hel & _ & Hs1 & Hr1 & Hv1).
    exists h1, r1, w1. split_and!; try done. by rewrite Hel.
  - destruct (wrap_spec h r wq Hr Hv Hd)
      as (pp & i & P & t & cl & a & L & R & f & d0 & np & w' & Hrun & _ & HP
          & HlP & _ & Hdoc & Hi & _ & _ & _ & _ & Hs).
    destruct (wrap_text h r wq Hr Hv Hd) as (w'' & Hrun' & Htext).
    rewrite Hrun in Hrun'. injection Hrun' as <-.
    simpl in Hs. rewrite Hsel in Hs. destruct Hs as [Hs Hr'].
    eexists _, _, w'. split_and!; try done.
    + assert (get_node (pp ++ [i]) (doc w') =
              Some (Elem "u" ["cdx-underline"] [] f)) as Hu.
      { rewrite Hdoc. erewrite get_node_snoc by (by eapply get_set_node).
        simpl. rewrite <- Hi. by rewrite list_lookup_middle. }
      by apply (valid_range_kids (pp ++ [i]) 0 (length f) _ _ Hu).
    + rewrite Hdoc, <- Hd. apply is_elem_label. eapply label_set_node; [done|].
      by rewrite HlP.
Qed.


(** *** Wrapping a range and unwrapping the wrapper again

    The [unwrap] may come after further calls have been recorded. *)

Lemma set_calls_same w : set_calls (calls w) w = w.
Proof. by destruct w. Qed.

Lemma wrap_then_unwrap h r w :
  ranges w !! h = Some (Some r) →
  valid_range (doc w) r = true →
  is_elem (doc w) = true →
  ∃ pp i P t cl a L R f w1,
    wrap h w = Ok tt w1 ∧
    range_text (doc w) r = texts f ∧
    get_node pp (doc w) = Some P ∧
    label P = Some (t, cl) ∧
    (∃ q, bnode (rstart r) = pp ++ q) ∧
    length L = i ∧
    doc w1 = set_node pp
               (Elem t cl a (L ++ [Elem "u" ["cdx-underline"] [] f] ++ R))
               (doc w) ∧
    get_node (pp ++ [i]) (doc w1) = Some (Elem "u" ["cdx-underline"] [] f) ∧
    textContent (doc w1) = textContent (doc w) ∧
    this w1 = this w ∧
    match selection w with
    | None => selection w1 = None
    | Some _ =>
        selected w1 =
          Some (Range (Bp (pp ++ [i]) 0) (Bp (pp ++ [i]) (length f)))
    end ∧
    ∀ cs, ∃ w2,
      unwrap (InDoc (pp ++ [i])) (set_calls cs w1) = Ok tt w2 ∧
      textContent (doc w2) = textContent (doc w) ∧
      this w2 = this w ∧
      match selection w with
      | None => doc w2 = doc w1 ∧ selection w2 = None
      | Some _ =>
          doc w2 = set_node pp (Elem t cl a (L ++ f ++ R)) (doc w) ∧
          selected w2 = Some (Range (Bp pp i) (Bp pp (i + length f)))
      end.
Proof.
  intros Hr Hv Hd.
  destruct (wrap_spec h r w Hr Hv Hd)
    as (pp & i & P & t & cl & a & L & R & f & d0 & np & w1 & Hrun1 & Hex & HP
        & HlP & Hq & Hdoc1 & Hi & _ & _ & Hthis1 & _ & Hs1).
  destruct (wrap_text h r w Hr Hv Hd) as (w1' & Hrun1' & Htext1).
  rewrite Hrun1 in Hrun1'. injection Hrun1' as <-.
  assert (range_text (doc w) r = texts f) as Hrt
    by (by unfold range_text; rewrite Hex).
  set (U := Elem "u" ["cdx-underline"] [] f) in *.
  assert (get_node pp (doc w1) = Some (Elem t cl a (L ++ [U] ++ R))) as HP1
    by (by rewrite Hdoc1; eapply get_set_node).
  assert ((L ++ [U] ++ R) !! i = Some U) as Hk
    by (by apply list_lookup_middle).
  assert (take i (L ++ [U] ++ R) = L) as Htake
    by (by rewrite take_app_length').
  assert (drop (S i) (L ++ [U] ++ R) = R) as Hdrop.
  { replace (L ++ [U] ++ R) with ((L ++ [U]) ++ R) by (by rewrite <- app_assoc).
    rewrite drop_app_length'; [done|]. rewrite length_app. simpl. lia. }
  exists pp, i, P, t, cl, a, L, R, f, w1.
  split_and!; try done.
  - by erewrite get_node_snoc by exact HP1.
  - destruct (selection w) as [l|]; [|done].
    destruct Hs1 as [Hs1 Hr1]. by eapply selected_single.
  - intros cs.
    destruct (unwrap_spec pp i t cl a _ "u" ["cdx-underline"] [] f
                (set_calls cs w1) HP1 Hk)
      as (w2 & Hrun2 & Hthis2 & _ & Hs2).
    unfold set_calls in Hs2, Hthis2.
    cbn [doc ranges selection this calls] in Hs2, Hthis2.
    exists w2. split_and!; try done.
    + rewrite <- Htext1.
      destruct (selection w1) as [l1|]; [|by destruct Hs2 as [-> _]].
      destruct Hs2 as (-> & _). by eapply unwrap_kid_text.
    + by rewrite Hthis2.
    + destruct (selection w) as [l|].
      * destruct Hs1 as [Hs1 Hr1]. rewrite Hs1 in Hs2.
        destruct Hs2 as (Hdoc2 & Hs2 & Hr2). rewrite Htake, Hdrop in Hdoc2.
        split.
        -- rewrite Hdoc2, Hdoc1. by eapply set_set_node.
        -- by eapply selected_single.
      * rewrite Hs1 in Hs2. by destruct Hs2.
Qed.


(** *** [checkState] *)

Lemma checkState_run w :
  ∃ w',
    checkState w = Ok (bool_decide (is_Some (selection_tag tag CSS w))) w' ∧
    doc w' = doc w ∧ ranges w' = ranges w ∧ selection w' = selection w ∧
    calls w' = calls w ++ [CallFindParentTag tag CSS] ∧
    iconClasses (this w') = iconClasses (this w) ∧
    match button (this w) with
    | None => button (this w') = None
    | Some b0 =>
        ∃ b1, button (this w') = Some b1 ∧
          btype b1 = btype b0 ∧ binnerHTML b1 = binnerHTML b0 ∧
          ∀ x, x ∈ bclassList b1 ↔
               if decide (x = active (iconClasses (this w)))
               then is_Some (selection_tag tag CSS w)
               else x ∈ bclassList b0
    end.
Proof.
  unfold checkState.
  rewrite (bind_ok _ _ _ _ _ (findParentTag_run tag CSS w)).
  erewrite bind_ok by reflexivity.
  unfold button_toggle, modify, mbind, M_bind, mret, M_ret. simpl.
  eexists. split; [reflexivity|].
  destruct (button (this w)) as [b0|] eqn:Hb; simpl; rewrite ?Hb;
    split_and!; try done.
  eexists. split_and!; try done.
  intros x. simpl. rewrite elem_of_classList_toggle.
  destruct (decide _); [|done]. by rewrite bool_decide_eq_true.
Qed.

End UnderlineFacts.

(** * Properties of the tool (spec section 8) *)

Import Dom Host Underline DomFacts HostFacts UnderlineFacts.




(** C2.  Round trip.  For a valid range of a document, [wrap] returns and
    leaves a wrapper element holding exactly the text the range selected;
    [unwrap] on that wrapper returns as well; the text content of the
    document is the same after each of the two calls as it was before:
    no character is added or removed. *)
Theorem wrap_then_unwrap_preserves_text h r w :
  ranges w !! h = Some (Some r) →
  valid_range (doc w) r = true →
  is_elem (doc w) = true →
  ∃ u f w1 w2,
    wrap h w = Ok tt w1 ∧
    get_node u (doc w1) = Some (Elem "u" ["cdx-underline"] [] f) ∧
    texts f = range_text (doc w) r ∧
    textContent (doc w1) = textContent (doc w) ∧
    unwrap (InDoc u) w1 = Ok tt w2 ∧
    textContent (doc w2) = textContent (doc w).
Proof.
  intros Hr Hv Hd.
  destruct (wrap_then_unwrap h r w Hr Hv Hd)
    as (pp & i & P & t & cl & a & L & R & f & w1 & Hrun1 & Hrt & _ & _ & _ & _
        & _ & Hu & Htext1 & _ & _ & Hun).
  destruct (Hun (calls w1)) as (w2 & Hrun2 & Htext2 & _).
  rewrite set_calls_same in Hrun2.
  by exists (pp ++ [i]), f, w1, w2.
Qed.

Lemma wrap_then_unwrap_preserves_text_witness :
  valid_range Scenario.page Scenario.word = true ∧
  ∃ u f w1 w2,
    wrap 0 (Scenario.editing Scenario.page Scenario.word) = Ok tt w1 ∧
    get_node u (doc w1) = Some (Elem "u" ["cdx-underline"] [] f) ∧
    texts f = "init" ∧
    textContent (doc w1) = "npm init command" ∧
    unwrap (InDoc u) w1 = Ok tt w2 ∧
    textContent (doc w2) = "npm init command".
Proof.
  split; [reflexivity|].
  apply (wrap_then_unwrap_preserves_text 0 Scenario.word
           (Scenario.editing Scenario.page Scenario.word));
    reflexivity.
Defined.

(** C3.  For a non-null range, [surround] asks [findParentTag] for a wrapper
    with the fixed tag and class and then does exactly what one of the two
    methods does: what [unwrap] does with the wrapper found, or, when none is
    found, what [wrap] does with the range.  In the run exactly one of the
    two methods is entered, never both. *)
Theorem surround_delegates_once h w :
  let wq := set_calls (calls w ++ [CallFindParentTag "U" "cdx-underline"]) w in
  findParentTag tag CSS w = Ok (selection_tag tag CSS w) wq ∧
  surround (Some h) w =
    match selection_tag tag CSS w with
    | Some termWrapper => unwrap termWrapper wq
    | None => wrap h wq
    end ∧
  ∃ l,
    calls (final (surround (Some h) w)) =
      calls w ++ CallFindParentTag "U" "cdx-underline" :: l ∧
    entries l =
      [match selection_tag tag CSS w with
       | Some _ => CallUnwrap
       | None => CallWrap
       end].
Proof.
  intros wq. split_and!.
  - apply findParentTag_run.
  - apply surround_run.
  - apply surround_entries.
Qed.

(** C4.  [unwrap] with a selection that holds no range.  When there is no
    selection object, [unwrap] returns without touching the document (see
    [unwrap_without_selection] below).  When there is a selection object and
    it holds no range after [expandToTag], which is what happens for an
    element that is not part of the document, [getRangeAt(0)] raises
    IndexSizeError: the [if (!range) return] guard that follows it is never
    reached, and [unwrap] throws instead of returning. *)
Theorem unwrap_without_range_throws :
  ∃ w',
    unwrap (Detached Scenario.loose_wrapper)
      (Scenario.editing Scenario.page Scenario.word) =
      Throw IndexSizeError w' ∧
    selection w' = Some [] ∧
    doc w' = Scenario.page.
Proof.
  exists (final (unwrap (Detached Scenario.loose_wrapper)
                   (Scenario.editing Scenario.page Scenario.word))).
  by vm_compute.
Qed.

(** With no selection object at all, [unwrap] is a no-op on the page: it
    returns, and only the record of calls has grown. *)
Lemma unwrap_without_selection e w :
  selection w = None →
  ∃ w', unwrap e w = Ok tt w' ∧
    doc w' = doc w ∧ ranges w' = ranges w ∧ selection w' = None ∧
    this w' = this w.
Proof.
  intros Hsel. eexists. split; [by apply unwrap_absent|]. by simpl.
Qed.

(** C5.  [surround] with a null range is a no-op: it returns,
    the page is exactly as before, and nothing is called: neither
    [findParentTag] nor [wrap] nor [unwrap].  The guard catches nothing else:
    with a Range object, whatever it spans, [surround] queries
    [findParentTag] and enters one of [wrap] and [unwrap]. *)
Theorem surround_null_is_noop w :
  surround None w = Ok tt w ∧
  ∀ h, ∃ l,
    calls (final (surround (Some h) w)) =
      calls w ++ CallFindParentTag "U" "cdx-underline" :: l ∧
    (entries l = [CallWrap] ∨ entries l = [CallUnwrap]).
Proof.
  split; [reflexivity|]. intros h.
  destruct (surround_entries h w) as (l & Hl & El).
  exists l. split; [done|].
  destruct (selection_tag tag CSS w); [by right | by left].
Qed.

(** C5, counterexample for an empty range.  An empty (collapsed) Range
    object is not null: [surround] goes on to [wrap], which inserts an empty
    wrapper element at the caret. *)
Lemma surround_empty_range_wraps :
  collapsed Scenario.caret = true ∧
  selected (Scenario.editing Scenario.page Scenario.caret) = Some Scenario.caret ∧
  ∃ w',
    surround (Some 0) (Scenario.editing Scenario.page Scenario.caret) = Ok tt w' ∧
    doc w' =
      Elem "div" [] []
        [Text "npm "; Elem "u" ["cdx-underline"] [] []; Text "init command"] ∧
    doc w' ≠ Scenario.page ∧
    entries (calls w') = [CallWrap].
Proof.
  split; [reflexivity|]. split; [reflexivity|].
  exists (final (surround (Some 0)
                   (Scenario.editing Scenario.page Scenario.caret))).
  split_and!; [by vm_compute..| |by vm_compute].
  vm_compute. discriminate.
Qed.




(** C7.  The sanitize rule is the object [{ u: { class: 'cdx-underline' } }].
    A sanitizer that applies it to a [u] element keeps the class attribute
    only when it is exactly [cdx-underline] and strips every other
    attribute; [<u class="cdx-underline" onclick="x">text</u>] becomes
    [<u class="cdx-underline">text</u>]. *)
Theorem sanitize_rule :
  sanitize = {[ "u" := {[ "class" := "cdx-underline" ]} ]} ∧
  (∀ cs a ks,
     clean sanitize (Elem "u" cs a ks) =
     Elem "u"
       (if decide (join " " cs = "cdx-underline") then cs else [])
       (filter (λ kv, kv = ("class", "cdx-underline")) a)
       (map (clean sanitize) ks)) ∧
  clean sanitize (Elem "u" ["cdx-underline"] [("onclick", "x")] [Text "text"]) =
    Elem "u" ["cdx-underline"] [] [Text "text"] ∧
  outerHTML (Elem "u" ["cdx-underline"] [("onclick", "x")] [Text "text"]) =
    "<u class=" +:+ dquote +:+ "cdx-underline" +:+ dquote +:+
    " onclick=" +:+ dquote +:+ "x" +:+ dquote +:+ ">text</u>" ∧
  outerHTML (Elem "u" ["cdx-underline"] [] [Text "text"]) =
    "<u class=" +:+ dquote +:+ "cdx-underline" +:+ dquote +:+ ">text</u>".
Proof.
  assert (∀ name value,
            attr_allowed {[ "class" := CSS ]} name value =
            bool_decide ((name, value) = ("class", "cdx-underline"))) as Hrule.
  { intros name value. unfold attr_allowed. apply bool_decide_ext.
    rewrite lookup_singleton_Some. unfold CSS. split.
    - by intros [<- <-].
    - by intros [= <- <-]. }
  split; [reflexivity|]. split; [|by vm_compute].
  intros cs a ks.
  change (clean sanitize (Elem "u" cs a ks)) with
    (match sanitize !! "u" with
     | Some rule =>
         Elem "u" (clean_classes rule cs) (clean_attrs rule a)
           (map (clean sanitize) ks)
     | None => Elem "u" cs a (map (clean sanitize) ks)
     end).
  unfold sanitize at 1. rewrite lookup_singleton_eq. f_equal.
  - unfold clean_classes. rewrite Hrule.
    destruct (decide (join " " cs = "cdx-underline")) as [->|Hne].
    + by rewrite bool_decide_eq_true_2.
    + rewrite bool_decide_eq_false_2; [done|]. by intros [= ?].
  - unfold clean_attrs. apply list_filter_iff. intros [k v]. simpl.
    rewrite Hrule. by rewrite bool_decide_eq_true.
Qed.

(** C8.  [wrap] on a valid range returns, and then: the content of the range
    has been extracted from where it was (the document without it reads as
    the text before the range followed by the text after it); a new element
    with tag name [U] and class [cdx-underline] holds that content as its
    children; the element lies in the document where the range was (the text
    before it and after it is the text before and after the range); the
    document's text is unchanged, so the content is there once; the host has
    been asked to expand the selection to the element, and a selection, if
    there is one, holds the element's contents.  The element serialises as
    [<u class="cdx-underline">...</u>]. *)
Theorem wrap_wraps_range h r w :
  ranges w !! h = Some (Some r) →
  valid_range (doc w) r = true →
  is_elem (doc w) = true →
  ∃ u f d0 np w',
    wrap h w = Ok tt w' ∧
    extract (doc w) r = Some (d0, f, np) ∧
    textContent d0 =
      text_before (bnode (rstart r)) (boff (rstart r)) (doc w) +:+
      text_after (bnode (rend r)) (boff (rend r)) (doc w) ∧
    get_node u (doc w') = Some (Elem "u" ["cdx-underline"] [] f) ∧
    tagName (Elem "u" ["cdx-underline"] [] f) = Some tag ∧
    text_before u 0 (doc w') =
      text_before (bnode (rstart r)) (boff (rstart r)) (doc w) ∧
    text_after u (length f) (doc w') =
      text_after (bnode (rend r)) (boff (rend r)) (doc w) ∧
    textContent (doc w') = textContent (doc w) ∧
    calls w' = calls w ++ [CallWrap; CallExpandToTag (InDoc u)] ∧
    match selection w with
    | None => selection w' = None
    | Some _ => selected w' = Some (Range (Bp u 0) (Bp u (length f)))
    end ∧
    outerHTML (Elem "u" ["cdx-underline"] [] f) =
      "<u class=" +:+ dquote +:+ "cdx-underline" +:+ dquote +:+ ">" +:+
      innerHTML f +:+ "</u>".
Proof.
  intros Hr Hv Hd.
  destruct (wrap_spec h r w Hr Hv Hd)
    as (pp & i & P & t & cl & a & L & R & f & d0 & np & w' & Hrun & Hex & HP
        & HlP & Hq & Hdoc & Hi & HL & HR & Hthis & Hcalls & Hs).
  destruct (wrap_text h r w Hr Hv Hd) as (w'' & Hrun' & Htext).
  rewrite Hrun in Hrun'. injection Hrun' as <-.
  destruct (extract_spec (doc w) r Hv)
    as (c & n & n' & f' & o' & Hex' & _ & _ & _ & _ & Hb & Ha & _).
  rewrite Hex in Hex'. injection Hex' as -> _ ->.
  set (U := Elem "u" ["cdx-underline"] [] f) in *.
  assert (get_node pp (doc w') = Some (Elem t cl a (L ++ [U] ++ R))) as HP'
    by (by rewrite Hdoc; eapply get_set_node).
  assert ((L ++ [U] ++ R) !! i = Some U) as Hk by (by apply list_lookup_middle).
  assert (get_node (pp ++ [i]) (doc w') = Some U) as Hu
    by (by erewrite get_node_snoc by exact HP').
  exists (pp ++ [i]), f, (set_node c n' (doc w)), (Bp c o'), w'.
  split_and!; try done.
  - by rewrite <- (text_before_after c o'), Hb, Ha.
  - rewrite (text_before_node _ _ _ _ Hu), (left_of_snoc pp i _ U _ HP' Hk).
    simpl. rewrite take_app_length' by done.
    rewrite Hdoc, (left_of_set_node pp P _ _ HP), take_0, texts_nil.
    by rewrite StrFacts.app_nil_r.
  - rewrite (text_after_node _ _ _ _ Hu), (right_of_snoc pp i _ U _ HP' Hk).
    simpl. rewrite drop_all, texts_nil.
    replace (L ++ U :: R) with ((L ++ [U]) ++ R) by (by rewrite <- app_assoc).
    rewrite drop_app_length' by (rewrite length_app; simpl; lia).
    by rewrite Hdoc, (right_of_set_node pp P _ _ HP).
  - destruct (selection w) as [l|]; [|done].
    destruct Hs as [Hs1 Hr1]. by eapply selected_single.
Qed.

Lemma wrap_wraps_range_witness :
  valid_range Scenario.page Scenario.word = true ∧
  ∃ u f d0 np w',
    wrap 0 (Scenario.editing Scenario.page Scenario.word) = Ok tt w' ∧
    extract Scenario.page Scenario.word = Some (d0, f, np) ∧
    textContent d0 = "npm " +:+ " command" ∧
    get_node u (doc w') = Some (Elem "u" ["cdx-underline"] [] f) ∧
    tagName (Elem "u" ["cdx-underline"] [] f) = Some "U" ∧
    text_before u 0 (doc w') = "npm " ∧
    text_after u (length f) (doc w') = " command" ∧
    textContent (doc w') = "npm init command" ∧
    calls w' = [CallWrap; CallExpandToTag (InDoc u)] ∧
    selected w' = Some (Range (Bp u 0) (Bp u (length f))) ∧
    outerHTML (Elem "u" ["cdx-underline"] [] f) =
      "<u class=" +:+ dquote +:+ "cdx-underline" +:+ dquote +:+ ">" +:+
      innerHTML f +:+ "</u>".
Proof.
  split; [reflexivity|].
  apply (wrap_wraps_range 0 Scenario.word
           (Scenario.editing Scenario.page Scenario.word));
    reflexivity.
Defined.

(** C9.  [unwrap] on a wrapper that has a parent, with a selection present,
    returns; in the document the wrapper has been replaced by its former
    contents; the selection holds exactly one range, the one spanning the
    re-inserted contents: it starts where the wrapper started and selects
    the text the wrapper held. *)
Theorem unwrap_restores_selection pp i tp cp ap kps t c a ks l w :
  get_node pp (doc w) = Some (Elem tp cp ap kps) →
  kps !! i = Some (Elem t c a ks) →
  selection w = Some l →
  ∃ h r w',
    unwrap (InDoc (pp ++ [i])) w = Ok tt w' ∧
    doc w' =
      set_node pp (Elem tp cp ap (take i kps ++ ks ++ drop (S i) kps)) (doc w) ∧
    textContent (doc w') = textContent (doc w) ∧
    selection w' = Some [h] ∧
    ranges w' !! h = Some (Some r) ∧
    r = Range (Bp pp i) (Bp pp (i + length ks)) ∧
    valid_range (doc w') r = true ∧
    range_text (doc w') r = textContent (Elem t c a ks) ∧
    text_before (bnode (rstart r)) (boff (rstart r)) (doc w') =
      left_of (pp ++ [i]) (doc w).
Proof.
  intros HP Hk Hsel.
  destruct (unwrap_spec pp i tp cp ap kps t c a ks w HP Hk)
    as (w' & Hrun & _ & _ & Hs).
  rewrite Hsel in Hs. destruct Hs as (Hdoc & Hs & Hr).
  assert (i < length kps) as Hi by (by eapply lookup_lt_Some).
  assert (length (take i kps) = i) as Hlen by (rewrite length_take; lia).
  assert (get_node pp (doc w') =
          Some (Elem tp cp ap (take i kps ++ ks ++ drop (S i) kps))) as HP'
    by (by rewrite Hdoc; eapply get_set_node).
  exists (length (ranges w)), (Range (Bp pp i) (Bp pp (i + length ks))), w'.
  split_and!; try done.
  - rewrite Hdoc. by eapply unwrap_kid_text.
  - eapply valid_range_kids; [exact HP'|].
    simpl. rewrite !length_app, length_take, length_drop. lia.
  - rewrite textContent_Elem. rewrite <- Hlen at 1 2.
    by eapply range_text_kids.
  - simpl. rewrite (text_before_node _ _ _ _ HP'). simpl.
    rewrite take_app_length' by done.
    rewrite Hdoc, (left_of_set_node pp _ _ _ HP).
    by erewrite (left_of_snoc pp i _ _ _ HP) by exact Hk.
Qed.

Lemma unwrap_restores_selection_witness :
  ∃ h r w',
    unwrap (InDoc [1]) (Scenario.editing Scenario.page_underlined Scenario.inside)
      = Ok tt w' ∧
    doc w' =
      Elem "div" [] [] [Text "npm "; Text "init"; Text " command"] ∧
    textContent (doc w') = "npm init command" ∧
    selection w' = Some [h] ∧
    ranges w' !! h = Some (Some r) ∧
    r = Range (Bp [] 1) (Bp [] 2) ∧
    valid_range (doc w') r = true ∧
    range_text (doc w') r = "init" ∧
    text_before (bnode (rstart r)) (boff (rstart r)) (doc w') = "npm ".
Proof.
  apply (unwrap_restores_selection [] 1 "div" [] []
           [Text "npm "; Elem "u" ["cdx-underline"] [] [Text "init"];
            Text " command"]
           "u" ["cdx-underline"] [] [Text "init"] [0]
           (Scenario.editing Scenario.page_underlined Scenario.inside));
    reflexivity.
Defined.

(** C10.  When the tool has no button, as is the case from construction
    until [render] is called, [checkState] does not throw: it returns what
    the wrapper query gives, and the tool's fields and the page are as
    before; only the query has been recorded. *)
Theorem checkState_without_button st w :
  button (this w) = None →
  button (constructor st) = None ∧
  checkState w =
    Ok (bool_decide (is_Some (selection_tag tag CSS w)))
       (set_calls (calls w ++ [CallFindParentTag "U" "cdx-underline"]) w).
Proof.
  intros Hb. split; [done|]. unfold checkState.
  rewrite (bind_ok _ _ _ _ _ (findParentTag_run tag CSS w)).
  erewrite bind_ok by reflexivity.
  unfold button_toggle, modify, mbind, M_bind, mret, M_ret. simpl.
  by rewrite Hb.
Qed.

Lemma checkState_without_button_witness :
  button (this (Scenario.editing Scenario.page_underlined Scenario.inside)) = None ∧
  checkState (Scenario.editing Scenario.page_underlined Scenario.inside) =
    Ok true
       (set_calls [CallFindParentTag "U" "cdx-underline"]
          (Scenario.editing Scenario.page_underlined Scenario.inside)).
Proof.
  split; [reflexivity|].
  apply (checkState_without_button Scenario.api_styles
           (Scenario.editing Scenario.page_underlined Scenario.inside)).
  reflexivity.
Defined.

(** * Further properties of the tool *)

Module MoreFacts.
Import Dom Host Underline Driver.
Import DomFacts HostFacts UnderlineFacts.

(** *** Nodes away from an edited place *)

Lemma get_set_node_diverge q pp m doc :
  diverge q pp = true → get_node q (set_node pp m doc) = get_node q doc.
Proof.
  revert pp doc; induction q as [|i q IH]; intros [|j pp] doc H;
    simpl in *; try done.
  destruct doc as [d | t c a ks]; [done|].
  destruct (decide (i = j)) as [->|Hne].
  - rewrite list_lookup_alter_eq. destruct (ks !! j) as [k|]; simpl; [|done].
    by apply IH.
  - by rewrite list_lookup_alter_ne.
Qed.

Lemma diverge_app_r q pp rest :
  diverge q pp = true → diverge q (pp ++ rest) = true.
Proof.
  revert pp; induction q as [|i q IH]; intros [|j pp] H; simpl in *; try done.
  destruct (decide (i = j)); [by apply IH | done].
Qed.

(** *** Extracting some children of an element *)

Lemma extract_kids pp t c a L ks R doc :
  get_node pp doc = Some (Elem t c a (L ++ ks ++ R)) →
  extract doc (Range (Bp pp (length L)) (Bp pp (length L + length ks))) =
    Some (set_node pp (Elem t c a (L ++ R)) doc, ks, Bp pp (length L)).
Proof.
  intros Hn. unfold extract, collapsed. simpl.
  destruct ks as [|k ks].
  - simpl in *. rewrite Nat.add_0_r, bool_decide_eq_true_2 by done.
    by rewrite (set_node_same pp _ _ Hn).
  - rewrite bool_decide_eq_false_2 by (simpl; intros [=]; lia).
    rewrite common_prefix_same, Hn. unfold extract_at.
    replace (length L + length (k :: ks) - length L) with (length (k :: ks))
      by lia.
    rewrite take_app_length, drop_app_length.
    replace (L ++ (k :: ks) ++ R) with ((L ++ k :: ks) ++ R)
      by (by rewrite <- app_assoc).
    rewrite drop_app_length' by (by rewrite length_app).
    rewrite take_app_length.
    unfold rebase. simpl. by rewrite app_nil_r.
Qed.

(** *** Inserting into an element, and next to a text node *)

Lemma insert_at_elem pp i ns t c a ks d :
  get_node pp d = Some (Elem t c a ks) →
  insert_at (Bp pp i) ns d =
    Some (set_node pp (Elem t c a (take i ks ++ ns ++ drop i ks)) d, pp, i).
Proof.
  intros Hn. unfold insert_at. simpl. rewrite Hn.
  by rewrite (upd_node_here pp _ _ d Hn).
Qed.

Lemma insert_at_text pp i o ns t c a ks dd d :
  get_node pp d = Some (Elem t c a ks) →
  ks !! i = Some (Text dd) →
  insert_at (Bp (pp ++ [i]) o) ns d =
    Some (set_node pp
            (Elem t c a (take i ks ++ [Text (Str.stake o dd)] ++ ns ++
                         [Text (Str.sdrop o dd)] ++ drop (S i) ks)) d,
          pp, S i).
Proof.
  intros Hn Hk. unfold insert_at. simpl.
  rewrite (get_node_snoc pp i d _ Hn). simpl. rewrite Hk, split_last_snoc.
  assert (i < length ks) by (by eapply lookup_lt_Some).
  rewrite (upd_node_here pp _ _ d Hn).
  rewrite (upd_node_here pp _ (split_kid i o (Elem t c a ks)))
    by (by eapply get_set_node).
  rewrite (set_set_node pp _ _ _ d Hn). simpl. rewrite Hk. simpl.
  do 4 f_equal.
  replace (take i ks ++ Text (Str.stake o dd) :: Text (Str.sdrop o dd)
             :: drop (S i) ks)
    with ((take i ks ++ [Text (Str.stake o dd)]) ++
           Text (Str.sdrop o dd) :: drop (S i) ks)
    by (by rewrite <- app_assoc).
  rewrite take_app_length', drop_app_length'
    by (rewrite length_app, length_take; simpl; lia).
  by rewrite <- !app_assoc.
Qed.

(** *** Running [wrap], given what the extraction and the insertion do *)

Lemma wrap_run h r d0 f np d1 pp i w :
  ranges w !! h = Some (Some r) →
  extract (doc w) r = Some (d0, f, np) →
  insert_at np [Elem "u" ["cdx-underline"] [] f] d0 = Some (d1, pp, i) →
  get_node (pp ++ [i]) d1 = Some (Elem "u" ["cdx-underline"] [] f) →
  ∃ w1,
    wrap h w = Ok tt w1 ∧ doc w1 = d1 ∧ this w1 = this w ∧
    match selection w with
    | None => selection w1 = None
    | Some _ =>
        selected w1 =
          Some (Range (Bp (pp ++ [i]) 0) (Bp (pp ++ [i]) (length f)))
    end.
Proof.
  intros Hr Hex Hins Hu.
  set (w0 := set_calls (calls w ++ [CallWrap]) w).
  set (w1 := set_ranges (<[h := Some (Range np np)]>
                 (adjust_all (adj_extract (doc w0) r) (ranges w0)))
               (set_doc d0 w0)).
  assert (ranges w1 !! h = Some (Some (Range np np))) as Hr1.
  { simpl. apply list_lookup_insert_eq. rewrite length_adjust_all.
    by eapply lookup_lt_Some. }
  destruct (insertNode_ok h _ (OneNode (Elem "u" ["cdx-underline"] [] f))
              _ pp i w1 Hr1 Hins)
    as (w2 & Hrun2 & Hdoc2 & Hsel2 & Hthis2 & _ & Hlen2).
  rewrite <- Hdoc2 in Hu.
  destruct (expandToTag_InDoc (pp ++ [i]) _ w2 Hu)
    as (w3 & Hrun3 & Hdoc3 & Hthis3 & _ & Hsel3).
  exists w3. split_and!.
  - unfold wrap.
    erewrite bind_ok by reflexivity.
    erewrite bind_ok by reflexivity.
    erewrite bind_ok by (by apply (extractContents_ok h r d0 f np)).
    erewrite bind_ok by reflexivity.
    rewrite wrapper_built.
    erewrite bind_ok by exact Hrun2.
    exact Hrun3.
  - by rewrite Hdoc3.
  - by rewrite Hthis3, Hthis2.
  - rewrite Hsel2 in Hsel3. simpl in Hsel3.
    destruct (selection w) as [l|]; [|by destruct Hsel3].
    destruct Hsel3 as [Hs3 Hr3].
    eapply selected_single; [exact Hs3|].
    by rewrite Hr3, lookup_app_r, Nat.sub_diag by done.
Qed.

(** *** Where an extraction collapses to and where an insertion lands *)

Lemma extract_point doc r d f np :
  extract doc r = Some (d, f, np) →
  bnode np = (common_prefix (bnode (rstart r)) (bnode (rend r))).1.1.
Proof.
  unfold extract. destruct (collapsed r) eqn:Hcol.
  - intros [= _ _ <-]. apply bool_decide_eq_true in Hcol.
    by rewrite <- Hcol, common_prefix_same.
  - destruct (common_prefix _ _) as [[c rs] re].
    destruct (get_node c doc) as [n|]; [|done].
    destruct (extract_at _ _ _ _ n) as [n' f'].
    intros [= _ _ <-]. unfold rebase. simpl.
    by destruct rs; simpl; rewrite app_nil_r.
Qed.

Lemma insert_at_where c o ns d d' pp i :
  insert_at (Bp c o) ns d = Some (d', pp, i) →
  (pp = c ∨ ∃ j, c = pp ++ [j]) ∧
  ∃ m, d' = set_node pp m d.
Proof.
  unfold insert_at. simpl.
  destruct (get_node c d) as [[dd | t cl a ks]|] eqn:Hn; [| |done].
  - destruct (split_last c) as [[pp' i']|] eqn:Hsl; [|done].
    intros [= <- <- <-]. apply split_last_Some in Hsl as ->.
    split; [right; by exists i'|].
    rewrite get_node_app in Hn.
    destruct (get_node pp' d) as [P|] eqn:HP; [|done].
    rewrite (upd_node_here pp' _ _ d HP).
    rewrite (upd_node_here pp' _ (split_kid i' o P))
      by (by eapply get_set_node).
    rewrite (set_set_node pp' _ _ _ d HP). by eexists.
  - intros [= <- <- <-]. split; [by left|].
    rewrite (upd_node_here c _ _ d Hn). by eexists.
Qed.

(** *** A range inside one text node *)

Lemma extract_in_text pp i so eo t c a ks dd doc :
  get_node pp doc = Some (Elem t c a ks) →
  ks !! i = Some (Text dd) →
  so < eo →
  extract doc (Range (Bp (pp ++ [i]) so) (Bp (pp ++ [i]) eo)) =
    Some (set_node pp
            (Elem t c a (take i ks ++
                         [Text (Str.stake so dd +:+ Str.sdrop eo dd)] ++
                         drop (S i) ks)) doc,
          [Text (Str.substringData so (eo - so) dd)],
          Bp (pp ++ [i]) so).
Proof.
  intros Hn Hk Hlt. unfold extract, collapsed. simpl.
  rewrite bool_decide_eq_false_2 by (intros [=]; lia).
  rewrite common_prefix_same, (get_node_snoc pp i doc _ Hn). simpl.
  rewrite Hk. simpl. unfold rebase. simpl. rewrite app_nil_r.
  rewrite (set_node_app pp [i] _ _ doc Hn). simpl.
  do 4 f_equal.
  rewrite <- (take_drop_middle ks i (Text dd) Hk) at 1.
  assert (i < length ks) by (by eapply lookup_lt_Some).
  rewrite alter_app_r_alt by (rewrite length_take; lia).
  by rewrite length_take, Nat.min_l, Nat.sub_diag by lia.
Qed.

Lemma wrap_in_text h pp i so eo t c a ks dd w :
  ranges w !! h = Some (Some (Range (Bp (pp ++ [i]) so) (Bp (pp ++ [i]) eo))) →
  get_node pp (doc w) = Some (Elem t c a ks) →
  ks !! i = Some (Text dd) →
  so < eo → eo ≤ String.length dd →
  ∃ w1,
    wrap h w = Ok tt w1 ∧
    doc w1 =
      set_node pp
        (Elem t c a
           (take i ks ++
            [Text (Str.stake so dd);
             Elem "u" ["cdx-underline"] []
               [Text (Str.substringData so (eo - so) dd)];
             Text (Str.sdrop eo dd)] ++
            drop (S i) ks)) (doc w) ∧
    this w1 = this w ∧
    match selection w with
    | None => selection w1 = None
    | Some _ =>
        selected w1 = Some (Range (Bp (pp ++ [S i]) 0) (Bp (pp ++ [S i]) 1))
    end.
Proof.
  intros Hr Hn Hk Hlt Hle.
  assert (i < length ks) as Hi by (by eapply lookup_lt_Some).
  pose proof (extract_in_text pp i so eo t c a ks dd (doc w) Hn Hk Hlt) as Hex.
  set (X := Str.stake so dd +:+ Str.sdrop eo dd) in *.
  set (ks0 := take i ks ++ [Text X] ++ drop (S i) ks) in *.
  set (d0 := set_node pp (Elem t c a ks0) (doc w)) in *.
  set (B := Str.substringData so (eo - so) dd) in *.
  assert (get_node pp d0 = Some (Elem t c a ks0)) as Hn0
    by (by eapply get_set_node).
  assert (ks0 !! i = Some (Text X)) as Hk0.
  { unfold ks0. apply list_lookup_middle. rewrite length_take. lia. }
  assert (take i ks0 = take i ks) as Htake.
  { unfold ks0. rewrite take_app_length'; [done|]. rewrite length_take. lia. }
  assert (drop (S i) ks0 = drop (S i) ks) as Hdrop.
  { unfold ks0. rewrite app_assoc.
    rewrite drop_app_length'; [done|].
    rewrite length_app, length_take. simpl. lia. }
  assert (Str.stake so X = Str.stake so dd) as HA.
  { unfold X. apply StrFacts.stake_app_exact, StrFacts.length_stake. lia. }
  assert (Str.sdrop so X = Str.sdrop eo dd) as HC.
  { unfold X. apply StrFacts.sdrop_app_exact, StrFacts.length_stake. lia. }
  pose proof (insert_at_text pp i so
                [Elem "u" ["cdx-underline"] [] [Text B]] t c a ks0 X d0 Hn0 Hk0)
    as Hins.
  rewrite Htake, Hdrop, HA, HC in Hins.
  unfold d0 in Hins at 2. rewrite (set_set_node pp _ _ _ (doc w) Hn) in Hins.
  destruct (wrap_run h _ d0 [Text B] _ _ pp (S i) w Hr Hex Hins)
    as (w1 & Hrun & Hdoc & Hthis & Hsel).
  { erewrite get_node_snoc by (by eapply get_set_node). cbn [children].
    rewrite app_assoc.
    apply (list_lookup_middle (take i ks ++ [Text (Str.stake so dd)])).
    rewrite length_app, length_take. simpl. lia. }
  exists w1. split_and!; done.
Qed.

(** *** The host toggling the tool *)

Lemma toggle_run h w : selection w = Some [h] → toggle w = surround (Some h) w.
Proof.
  intros Hsel. unfold toggle. erewrite bind_ok by reflexivity.
  unfold sel_ranges. by rewrite Hsel.
Qed.

Lemma toggle_times_S n w w1 :
  toggle w = Ok tt w1 → toggle_times (S n) w = toggle_times n w1.
Proof. intros H. simpl. by erewrite bind_ok by exact H. Qed.

Lemma plain_tag w : plain w → selection_tag tag CSS w = None.
Proof. by intros (h & r & _ & _ & _ & _ & H). Qed.

Lemma underlined_tag w : underlined w → is_Some (selection_tag tag CSS w).
Proof.
  intros (h & pp & i & f & Hsel & Hr & Hu & _).
  rewrite (selection_tag_selected _ _ _ _ (selected_single _ _ _ Hsel Hr)).
  simpl. by rewrite (find_up_self tag CSS _ _ _ Hu (wrapper_is_tag f)).
Qed.

Lemma toggle_plain w :
  plain w →
  ∃ w', toggle w = Ok tt w' ∧ underlined w' ∧
    textContent (doc w') = textContent (doc w).
Proof.
  intros (h & r & Hsel & Hr & Hv & Hd & Htag).
  rewrite (toggle_run h w Hsel), surround_run, Htag.
  set (wq := set_calls (calls w ++ [CallFindParentTag tag CSS]) w).
  destruct (wrap_spec h r wq Hr Hv Hd)
    as (pp & i & P & t & cl & a & L & R & f & d0 & np & w' & Hrun & _ & HP
        & HlP & [q Hq] & Hdoc & Hi & _ & _ & _ & _ & Hs).
  destruct (wrap_text h r wq Hr Hv Hd) as (w'' & Hrun' & Htext).
  rewrite Hrun in Hrun'. injection Hrun' as <-.
  simpl in Hs. rewrite Hsel in Hs. destruct Hs as [Hs Hr'].
  exists w'. split_and!; try done.
  exists (length (ranges wq)), pp, i, f. split_and!; try done.
  - rewrite Hdoc. erewrite get_node_snoc by (by eapply get_set_node).
    simpl. rewrite <- Hi. by rewrite list_lookup_middle.
  - rewrite Hdoc, (find_up_set_node tag CSS pp P) by (by rewrite ?HlP).
    apply (find_up_None_prefix tag CSS pp q). rewrite <- Hq.
    change (doc wq) with (doc w).
    rewrite (selection_tag_selected _ _ _ r) in Htag
      by (by eapply selected_single).
    by destruct (find_up tag CSS (bnode (rstart r)) (doc w)).
  - rewrite Hdoc. change (is_elem (doc w) = true) in Hd. rewrite <- Hd.
    apply is_elem_label. eapply label_set_node; [done|].
    by rewrite HlP.
Qed.

Lemma toggle_underlined w :
  underlined w →
  ∃ w', toggle w = Ok tt w' ∧ plain w' ∧
    textContent (doc w') = textContent (doc w).
Proof.
  intros (h & pp & i & f & Hsel & Hr & Hu & Hup & Hd).
  rewrite (toggle_run h w Hsel), surround_run.
  rewrite (selection_tag_selected _ _ _ _ (selected_single _ _ _ Hsel Hr)).
  simpl. rewrite (find_up_self tag CSS _ _ _ Hu (wrapper_is_tag f)).
  rewrite get_node_app in Hu.
  destruct (get_node pp (doc w)) as [[? | tp cp ap kps]|] eqn:HP; try done.
  simpl in Hu. destruct (kps !! i) as [k|] eqn:Hk; [|done].
  injection Hu as ->.
  assert (i < length kps) as Hi by (by eapply lookup_lt_Some).
  destruct (unwrap_spec pp i tp cp ap kps "u" [CSS] [] f
              (set_calls (calls w ++ [CallFindParentTag tag CSS]) w) HP Hk)
    as (w' & Hrun & _ & _ & Hs).
  simpl in Hs. rewrite Hsel in Hs. destruct Hs as (Hdoc & Hs & Hr').
  exists w'. split_and!; try done.
  - exists (length (ranges w)), (Range (Bp pp i) (Bp pp (i + length f))).
    split_and!; try done.
    + eapply valid_range_kids.
      * rewrite Hdoc. by eapply get_set_node.
      * simpl. rewrite !length_app, length_take, length_drop. lia.
    + rewrite Hdoc, <- Hd. apply is_elem_label. by eapply label_set_node.
    + erewrite selection_tag_selected by (by eapply selected_single).
      simpl. rewrite Hdoc.
      by rewrite (find_up_set_node tag CSS pp _ _ _ HP), Hup.
  - rewrite Hdoc. by eapply unwrap_kid_text.
Qed.

Lemma toggle_times_alternates n w :
  (plain w →
   ∃ w', toggle_times n w = Ok tt w' ∧
     textContent (doc w') = textContent (doc w) ∧
     if Nat.odd n then underlined w' else plain w') ∧
  (underlined w →
   ∃ w', toggle_times n w = Ok tt w' ∧
     textContent (doc w') = textContent (doc w) ∧
     if Nat.odd n then plain w' else underlined w').
Proof.
  revert w; induction n as [|n IH]; intros w.
  - split; intros H; by exists w.
  - rewrite Nat.odd_succ, <- Nat.negb_odd. split; intros H.
    + destruct (toggle_plain w H) as (w1 & Hrun & Hu & Htext).
      destruct (proj2 (IH w1) Hu) as (w' & Hrun' & Htext' & Hst).
      exists w'. rewrite (toggle_times_S n w w1 Hrun).
      split_and!; [done | by rewrite Htext' | by destruct (Nat.odd n)].
    + destruct (toggle_underlined w H) as (w1 & Hrun & Hp & Htext).
      destruct (proj1 (IH w1) Hp) as (w' & Hrun' & Htext' & Hst).
      exists w'. rewrite (toggle_times_S n w w1 Hrun).
      split_and!; [done | by rewrite Htext' | by destruct (Nat.odd n)].
Qed.

(** *** The class list of the button *)

Lemma classList_add_nil c : classList_add c [] = [c].
Proof.
  unfold classList_add, classList_contains.
  by rewrite bool_decide_eq_false_2 by apply not_elem_of_nil.
Qed.

Lemma classList_add_add c l :
  classList_add c (classList_add c l) = classList_add c l.
Proof.
  unfold classList_add at 2. unfold classList_contains.
  destruct (bool_decide (c ∈ l)) eqn:Hc.
  - unfold classList_add, classList_contains. by rewrite Hc.
  - unfold classList_add, classList_contains.
    rewrite Hc, bool_decide_eq_true_2; [done|].
    apply elem_of_app. right. by apply list_elem_of_singleton.
Qed.

Lemma classList_remove_remove c l :
  classList_remove c (classList_remove c l) = classList_remove c l.
Proof.
  unfold classList_remove. induction l as [|x l IH]; [done|].
  rewrite (filter_cons _ x l). destruct (decide (x ≠ c)) as [Hx|Hx]; [|done].
  rewrite (filter_cons _ x (filter _ l)), decide_True by done. by rewrite IH.
Qed.

Lemma classList_toggle_toggle c force l :
  classList_toggle c force (classList_toggle c force l) =
  classList_toggle c force l.
Proof.
  destruct force; simpl; [apply classList_add_add|apply classList_remove_remove].
Qed.

(** *** Computations that leave the tool instance alone *)

Lemma keeps_this_bind {A B} (m : M A) (f : A → M B) :
  keeps_this m → (∀ a, keeps_this (f a)) → keeps_this (m ≫= f).
Proof.
  intros Hm Hf w. unfold mbind, M_bind. specialize (Hm w).
  destruct (m w) as [a w1|e w1]; simpl in *; [|done].
  by rewrite (Hf a w1).
Qed.

Lemma keeps_this_ret {A} (a : A) : keeps_this (mret a).
Proof. by intros w. Qed.

Lemma keeps_this_record c : keeps_this (record c).
Proof. by intros w. Qed.

Lemma keeps_this_getSelection : keeps_this getSelection.
Proof. intros w. unfold getSelection. by destruct (selection w). Qed.

Lemma keeps_this_getRangeAt sel i : keeps_this (getRangeAt sel i).
Proof. intros w. unfold getRangeAt. by destruct (sel_ranges w !! i). Qed.

Lemma keeps_this_removeAllRanges sel : keeps_this (removeAllRanges sel).
Proof. by intros w. Qed.

Lemma keeps_this_addRange sel h : keeps_this (addRange sel h).
Proof.
  intros w. unfold addRange.
  destruct (ranges w !! h) as [[r|]|]; try done.
  by destruct (selection w) as [[|? ?]|].
Qed.

Lemma keeps_this_createRange : keeps_this createRange.
Proof. by intros w. Qed.

Lemma keeps_this_selectNodeContents h e : keeps_this (selectNodeContents h e).
Proof.
  intros w. unfold selectNodeContents.
  destruct (ranges w !! h); [|done]. destruct e as [p|n]; [|done].
  by destruct (get_node p (doc w)).
Qed.

Lemma keeps_this_extractContents h : keeps_this (extractContents h).
Proof.
  intros w. unfold extractContents.
  destruct (ranges w !! h) as [[r|]|]; try done.
  by destruct (extract (doc w) r) as [[[d f] np]|].
Qed.

Lemma keeps_this_insertNode h c : keeps_this (insertNode h c).
Proof.
  intros w. unfold insertNode.
  destruct (ranges w !! h) as [[r|]|]; try done.
  destruct (get_node (bnode (rstart r)) (doc w)) as [[d|t cl a ks]|]; try done.
  by destruct (split_last (bnode (rstart r))) as [[pp i]|].
Qed.

Lemma keeps_this_appendChild n f : keeps_this (appendChild n f).
Proof. intros w. by destruct f. Qed.

Lemma keeps_this_removeFromParent e : keeps_this (removeFromParent e).
Proof.
  intros w. unfold removeFromParent. destruct e as [p|n]; [|done].
  destruct (split_last p) as [[pp i]|]; [|done].
  by destruct (get_node p (doc w)).
Qed.

Lemma keeps_this_expandToTag e : keeps_this (expandToTag e).
Proof.
  unfold expandToTag.
  apply keeps_this_bind; [apply keeps_this_record|]. intros _.
  apply keeps_this_bind; [apply keeps_this_getSelection|].
  intros [sel|]; [|apply keeps_this_ret].
  apply keeps_this_bind; [apply keeps_this_removeAllRanges|]. intros _.
  apply keeps_this_bind; [apply keeps_this_createRange|]. intros h.
  apply keeps_this_bind; [apply keeps_this_selectNodeContents|]. intros _.
  apply keeps_this_addRange.
Qed.

Lemma keeps_this_findParentTag tn cn : keeps_this (findParentTag tn cn).
Proof. by intros w. Qed.

Lemma keeps_this_wrap h : keeps_this (wrap h).
Proof.
  unfold wrap.
  apply keeps_this_bind; [apply keeps_this_record|]. intros _.
  apply keeps_this_bind; [apply keeps_this_ret|]. intros u.
  apply keeps_this_bind; [apply keeps_this_extractContents|]. intros f.
  apply keeps_this_bind; [apply keeps_this_appendChild|]. intros u'.
  apply keeps_this_bind; [apply keeps_this_insertNode|]. intros p.
  apply keeps_this_expandToTag.
Qed.

Lemma keeps_this_unwrap e : keeps_this (unwrap e).
Proof.
  unfold unwrap.
  apply keeps_this_bind; [apply keeps_this_record|]. intros _.
  apply keeps_this_bind; [apply keeps_this_expandToTag|]. intros _.
  apply keeps_this_bind; [apply keeps_this_getSelection|].
  intros [sel|]; [|apply keeps_this_ret].
  apply keeps_this_bind; [apply keeps_this_getRangeAt|].
  intros [h|]; [|apply keeps_this_ret].
  apply keeps_this_bind; [apply keeps_this_extractContents|].
  intros [f|]; [|apply keeps_this_ret].
  apply keeps_this_bind; [apply keeps_this_removeFromParent|]. intros _.
  apply keeps_this_bind; [apply keeps_this_insertNode|]. intros _.
  apply keeps_this_bind; [apply keeps_this_removeAllRanges|]. intros _.
  apply keeps_this_addRange.
Qed.

(** *** The sanitizer keeps the shape of the tree *)

Lemma lookup_map {A B} (f : A → B) (l : list A) i :
  map f l !! i = f <$> l !! i.
Proof.
  revert i; induction l as [|x l IH]; intros [|i]; simpl; done.
Qed.

Lemma get_node_clean cfg p d :
  get_node p (clean cfg d) = clean cfg <$> get_node p d.
Proof.
  revert d; induction p as [|i p IH]; intros d; [done|].
  destruct d as [dd | t c a ks]; [done|]. simpl.
  destruct (cfg !! t); simpl; rewrite lookup_map;
    destruct (ks !! i) as [k|]; simpl; try done; apply IH.
Qed.

(** *** [wrap] at a caret: where the empty wrapper goes *)

Lemma wrap_caret h b w :
  ranges w !! h = Some (Some (Range b b)) →
  valid_bp (doc w) b = true →
  is_elem (doc w) = true →
  ∃ u w1,
    wrap h w = Ok tt w1 ∧
    match selection w with
    | None => selection w1 = None
    | Some _ => selected w1 = Some (Range (Bp u 0) (Bp u 0))
    end ∧
    match get_node (bnode b) (doc w) with
    | Some (Elem t c a ks) =>
        u = bnode b ++ [boff b] ∧
        doc w1 =
          set_node (bnode b)
            (Elem t c a
               (take (boff b) ks ++ [Elem "u" ["cdx-underline"] [] []] ++
                drop (boff b) ks)) (doc w)
    | Some (Text dd) =>
        ∃ pp i t c a ks,
          bnode b = pp ++ [i] ∧
          get_node pp (doc w) = Some (Elem t c a ks) ∧
          u = pp ++ [S i] ∧
          doc w1 =
            set_node pp
              (Elem t c a
                 (take i ks ++
                  [Text (Str.stake (boff b) dd);
                   Elem "u" ["cdx-underline"] [] [];
                   Text (Str.sdrop (boff b) dd)] ++
                  drop (S i) ks)) (doc w)
    | None => False
    end.
Proof.
  intros Hr Hb Hd. destruct b as [p o]. unfold valid_bp in Hb. simpl in *.
  assert (extract (doc w) (Range (Bp p o) (Bp p o)) =
          Some (doc w, [], Bp p o)) as Hex.
  { unfold extract, collapsed. simpl. by rewrite bool_decide_eq_true_2. }
  destruct (get_node p (doc w)) as [[dd | t c a ks]|] eqn:Hn; [| |done].
  - destruct (path_cases p) as [-> | (pp & i & ->)].
    { simpl in Hn. injection Hn as Hn. by rewrite Hn in Hd. }
    rewrite get_node_app in Hn.
    destruct (get_node pp (doc w)) as [[? | t c a ks]|] eqn:HP; try done.
    simpl in Hn. destruct (ks !! i) as [k|] eqn:Hk; [|done].
    injection Hn as ->.
    assert (i < length ks) as Hi by (by eapply lookup_lt_Some).
    pose proof (insert_at_text pp i o [Elem "u" ["cdx-underline"] [] []]
                  t c a ks dd (doc w) HP Hk) as Hins.
    destruct (wrap_run h _ (doc w) [] _ _ pp (S i) w Hr Hex Hins)
      as (w1 & Hrun & Hdoc & _ & Hs).
    { erewrite get_node_snoc by (by eapply get_set_node). cbn [children].
      rewrite app_assoc.
      apply (list_lookup_middle (take i ks ++ [Text (Str.stake o dd)])).
      rewrite length_app, length_take. simpl. lia. }
    exists (pp ++ [S i]), w1. split_and!; try done.
    by exists pp, i, t, c, a, ks.
  - apply bool_decide_eq_true in Hb. simpl in Hb.
    pose proof (insert_at_elem p o [Elem "u" ["cdx-underline"] [] []]
                  t c a ks (doc w) Hn) as Hins.
    destruct (wrap_run h _ (doc w) [] _ _ p o w Hr Hex Hins)
      as (w1 & Hrun & Hdoc & _ & Hs).
    { erewrite get_node_snoc by (by eapply get_set_node). cbn [children].
      apply list_lookup_middle. rewrite length_take. lia. }
    by exists (p ++ [o]), w1.
Qed.

End MoreFacts.

Import Dom Host Underline Driver DomFacts HostFacts UnderlineFacts MoreFacts.



(** X2.  When [findParentTag] reports a wrapper, [surround] does not use the
    range it was called with: whatever Range reference is passed, the whole
    wrapper is unwrapped, not the selected part of it, and the selection ends
    up over all of the wrapper's former contents. *)
Theorem surround_unwraps_whole_wrapper h pp i tp cp ap kps t c a ks l w :
  selection w = Some l →
  selection_tag tag CSS w = Some (InDoc (pp ++ [i])) →
  get_node pp (doc w) = Some (Elem tp cp ap kps) →
  kps !! i = Some (Elem t c a ks) →
  ∃ w',
    surround (Some h) w = Ok tt w' ∧
    doc w' =
      set_node pp (Elem tp cp ap (take i kps ++ ks ++ drop (S i) kps)) (doc w) ∧
    selected w' = Some (Range (Bp pp i) (Bp pp (i + length ks))).
Proof.
  intros Hsel Htag HP Hk. rewrite surround_run, Htag.
  destruct (unwrap_spec pp i tp cp ap kps t c a ks
              (set_calls (calls w ++ [CallFindParentTag tag CSS]) w) HP Hk)
    as (w' & Hrun & _ & _ & Hs).
  simpl in Hs. rewrite Hsel in Hs. destruct Hs as (Hdoc & Hs & Hr).
  exists w'. split_and!; try done. by eapply selected_single.
Qed.

Lemma surround_unwraps_whole_wrapper_witness :
  ranges (Scenario.editing Scenario.page_underlined Scenario.inside) !! 7 = None ∧
  ∃ w',
    surround (Some 7) (Scenario.editing Scenario.page_underlined Scenario.inside)
      = Ok tt w' ∧
    doc w' = Elem "div" [] [] [Text "npm "; Text "init"; Text " command"] ∧
    selected w' = Some (Range (Bp [] 1) (Bp [] 2)).
Proof.
  split; [reflexivity|].
  apply (surround_unwraps_whole_wrapper 7 [] 1 "div" [] []
           [Text "npm "; Elem "u" ["cdx-underline"] [] [Text "init"];
            Text " command"]
           "u" ["cdx-underline"] [] [Text "init"] [0]
           (Scenario.editing Scenario.page_underlined Scenario.inside));
    by vm_compute.
Defined.

(** X3.  [unwrap] changes the document only at the wrapper's parent: a node
    at a path that parts from the path of the parent is as it was. *)
Theorem unwrap_leaves_rest_alone pp i tp cp ap kps t c a ks q w :
  get_node pp (doc w) = Some (Elem tp cp ap kps) →
  kps !! i = Some (Elem t c a ks) →
  diverge q pp = true →
  ∃ w',
    unwrap (InDoc (pp ++ [i])) w = Ok tt w' ∧
    get_node q (doc w') = get_node q (doc w).
Proof.
  intros HP Hk Hq.
  destruct (unwrap_spec pp i tp cp ap kps t c a ks w HP Hk)
    as (w' & Hrun & _ & _ & Hs).
  exists w'. split; [done|].
  destruct (selection w) as [l|].
  - destruct Hs as (-> & _). by apply get_set_node_diverge.
  - by destruct Hs as [-> _].
Qed.

Lemma unwrap_leaves_rest_alone_witness :
  diverge [1] [0] = true ∧
  ∃ w',
    unwrap (InDoc [0; 1])
      (Scenario.editing Scenario.two_blocks_underlined Scenario.inside_block)
      = Ok tt w' ∧
    get_node [1] (doc w') = Some (Elem "p" [] [] [Text "other"]).
Proof.
  split; [reflexivity|].
  apply (unwrap_leaves_rest_alone [0] 1 "p" [] []
           [Text "npm "; Elem "u" ["cdx-underline"] [] [Text "init"];
            Text " command"]
           "u" ["cdx-underline"] [] [Text "init"] [1]
           (Scenario.editing Scenario.two_blocks_underlined
              Scenario.inside_block));
    by vm_compute.
Defined.

(** X4.  [wrap] changes the document only at the common ancestor of the
    range's two boundary points and at that ancestor's parent (where the
    wrapper goes when the ancestor is a text node): a node at a path that
    parts from the path of that parent is as it was. *)
Theorem wrap_leaves_rest_alone h r c rs re pc j q w :
  ranges w !! h = Some (Some r) →
  valid_range (doc w) r = true →
  is_elem (doc w) = true →
  common_prefix (bnode (rstart r)) (bnode (rend r)) = (c, rs, re) →
  split_last c = Some (pc, j) →
  diverge q pc = true →
  ∃ w',
    wrap h w = Ok tt w' ∧
    get_node q (doc w') = get_node q (doc w).
Proof.
  intros Hr Hv Hd Hcp Hsl Hq.
  apply split_last_Some in Hsl as Hc.
  destruct (extract_spec (doc w) r Hv)
    as (c' & n & n' & f & o' & Hex & Hn & Hl & Ho & _).
  pose proof (extract_point _ _ _ _ _ Hex) as Hpt.
  rewrite Hcp in Hpt. simpl in Hpt. subst c'.
  set (d0 := set_node c n' (doc w)) in *.
  assert (get_node c d0 = Some n') as Hn' by (by eapply get_set_node).
  assert (is_elem d0 = true) as Hd0.
  { rewrite <- Hd. apply is_elem_label. by eapply label_set_node. }
  destruct (insert_at_spec c o' [Elem "u" ["cdx-underline"] [] f] d0 n'
              Hn' Ho Hd0)
    as (pp & q0 & i & P0 & t & cl & a & L & R & Hins & _ & HP0 & _ & Hi & _).
  destruct (insert_at_where _ _ _ _ _ _ _ Hins) as [Hpp _].
  destruct (wrap_run h r d0 f (Bp c o') _ pp i w Hr Hex Hins)
    as (w' & Hrun & Hdoc & _).
  { erewrite get_node_snoc by (by eapply get_set_node). simpl.
    by apply list_lookup_middle. }
  exists w'. split; [done|]. rewrite Hdoc.
  assert (diverge q c = true) as Hqc by (rewrite Hc; by apply diverge_app_r).
  assert (diverge q pp = true) as Hqpp.
  { destruct Hpp as [-> | [j' Hj]]; [done|].
    rewrite Hc in Hj. by apply app_inj_tail in Hj as [-> _]. }
  rewrite get_set_node_diverge by done. by apply get_set_node_diverge.
Qed.

Lemma wrap_leaves_rest_alone_witness :
  valid_range Scenario.two_blocks Scenario.word_in_block = true ∧
  diverge [1] [0] = true ∧
  ∃ w',
    wrap 0 (Scenario.editing Scenario.two_blocks Scenario.word_in_block)
      = Ok tt w' ∧
    get_node [1] (doc w') = Some (Elem "p" [] [] [Text "other"]).
Proof.
  split; [reflexivity|]. split; [reflexivity|].
  apply (wrap_leaves_rest_alone 0 Scenario.word_in_block [0; 0] [] [] [0] 0 [1]
           (Scenario.editing Scenario.two_blocks Scenario.word_in_block));
    by vm_compute.
Defined.

(** X5.  The usual case: the range lies inside one text node and is not
    empty.  [wrap] splits the text node in three: the text before the range,
    the wrapper holding the selected text, and the text after the range, in
    the place of the text node.  The selection then covers the wrapper's
    contents. *)
Theorem wrap_splits_text h pp i so eo t c a ks dd l w :
  ranges w !! h = Some (Some (Range (Bp (pp ++ [i]) so) (Bp (pp ++ [i]) eo))) →
  selection w = Some l →
  get_node pp (doc w) = Some (Elem t c a ks) →
  ks !! i = Some (Text dd) →
  so < eo → eo ≤ String.length dd →
  ∃ w1,
    wrap h w = Ok tt w1 ∧
    doc w1 =
      set_node pp
        (Elem t c a
           (take i ks ++
            [Text (Str.stake so dd);
             Elem "u" [CSS] [] [Text (Str.substringData so (eo - so) dd)];
             Text (Str.sdrop eo dd)] ++
            drop (S i) ks)) (doc w) ∧
    selected w1 = Some (Range (Bp (pp ++ [S i]) 0) (Bp (pp ++ [S i]) 1)).
Proof.
  intros Hr Hsel Hn Hk Hlt Hle.
  destruct (wrap_in_text h pp i so eo t c a ks dd w Hr Hn Hk Hlt Hle)
    as (w1 & Hrun & Hdoc & _ & Hs).
  rewrite Hsel in Hs. by exists w1.
Qed.

Lemma wrap_splits_text_witness :
  ∃ w1,
    wrap 0 (Scenario.editing Scenario.page Scenario.word) = Ok tt w1 ∧
    doc w1 =
      Elem "div" [] []
        [Text "npm "; Elem "u" ["cdx-underline"] [] [Text "init"];
         Text " command"] ∧
    selected w1 = Some (Range (Bp [1] 0) (Bp [1] 1)).
Proof.
  apply (wrap_splits_text 0 [] 0 4 8 "div" [] [] [Text "npm init command"]
           "npm init command" [0]
           (Scenario.editing Scenario.page Scenario.word));
    first [reflexivity | vm_compute; lia].
Defined.

(** X6.  No [normalize]: when [surround] has wrapped a part of a text node
    and a second [surround] has unwrapped it again, the three text nodes the
    first call made stay three; the document has the same text but is not the
    document it was.  The selection covers the middle one. *)
Theorem surround_twice_leaves_text_split h pp i so eo t c a ks dd w :
  selection w = Some [h] →
  ranges w !! h = Some (Some (Range (Bp (pp ++ [i]) so) (Bp (pp ++ [i]) eo))) →
  get_node pp (doc w) = Some (Elem t c a ks) →
  ks !! i = Some (Text dd) →
  so < eo → eo ≤ String.length dd →
  selection_tag tag CSS w = None →
  ∃ w1 h1 w2,
    surround (Some h) w = Ok tt w1 ∧
    head (sel_ranges w1) = Some h1 ∧
    surround (Some h1) w1 = Ok tt w2 ∧
    doc w2 =
      set_node pp
        (Elem t c a
           (take i ks ++
            [Text (Str.stake so dd);
             Text (Str.substringData so (eo - so) dd);
             Text (Str.sdrop eo dd)] ++
            drop (S i) ks)) (doc w) ∧
    doc w2 ≠ doc w ∧
    selected w2 = Some (Range (Bp pp (S i)) (Bp pp (S (S i)))).
Proof.
  intros Hsel Hr Hn Hk Hlt Hle Htag.
  assert (i < length ks) as Hi by (by eapply lookup_lt_Some).
  set (wq := set_calls (calls w ++ [CallFindParentTag tag CSS]) w).
  destruct (wrap_in_text h pp i so eo t c a ks dd wq Hr Hn Hk Hlt Hle)
    as (w1 & Hrun1 & Hdoc1 & _ & Hs1).
  simpl in Hs1, Hdoc1. rewrite Hsel in Hs1.
  set (A := Str.stake so dd) in *.
  set (B := Str.substringData so (eo - so) dd) in *.
  set (C := Str.sdrop eo dd) in *.
  set (U := Elem "u" ["cdx-underline"] [] [Text B]) in *.
  set (kps := take i ks ++ [Text A; U; Text C] ++ drop (S i) ks) in *.
  assert (get_node pp (doc w1) = Some (Elem t c a kps)) as HP1
    by (by rewrite Hdoc1; eapply get_set_node).
  assert (kps !! S i = Some U) as HU.
  { unfold kps.
    change ([Text A; U; Text C] ++ drop (S i) ks)
      with ([Text A] ++ U :: Text C :: drop (S i) ks).
    rewrite app_assoc. apply list_lookup_middle.
    rewrite length_app, length_take. simpl. lia. }
  assert (take (S i) kps = take i ks ++ [Text A]) as Htake.
  { unfold kps.
    change ([Text A; U; Text C] ++ drop (S i) ks)
      with ([Text A] ++ U :: Text C :: drop (S i) ks).
    rewrite app_assoc. apply take_app_length'.
    rewrite length_app, length_take. simpl. lia. }
  assert (drop (S (S i)) kps = Text C :: drop (S i) ks) as Hdrop.
  { unfold kps.
    change ([Text A; U; Text C] ++ drop (S i) ks)
      with ([Text A; U] ++ Text C :: drop (S i) ks).
    rewrite app_assoc. apply drop_app_length'.
    rewrite length_app, length_take. simpl. lia. }
  assert (selection_tag tag CSS w1 = Some (InDoc (pp ++ [S i]))) as Htag1.
  { rewrite (selection_tag_selected _ _ _ _ Hs1). simpl.
    erewrite find_up_self; [done| |apply (wrapper_is_tag [Text B])].
    by erewrite get_node_snoc by exact HP1. }
  assert (∃ h1, head (sel_ranges w1) = Some h1) as [h1 Hh1].
  { unfold selected in Hs1. destruct (sel_ranges w1) as [|h1 ?]; [done|].
    by exists h1. }
  assert (∃ l1, selection w1 = Some l1) as [l1 Hsel1].
  { unfold sel_ranges in Hh1. destruct (selection w1) as [l1|]; [|done].
    by exists l1. }
  destruct (unwrap_spec pp (S i) t c a kps "u" ["cdx-underline"] [] [Text B]
              (set_calls (calls w1 ++ [CallFindParentTag tag CSS]) w1) HP1 HU)
    as (w2 & Hrun2 & _ & _ & Hs2).
  simpl in Hs2. rewrite Hsel1 in Hs2. destruct Hs2 as (Hdoc2 & Hs2 & Hr2).
  assert (doc w2 =
          set_node pp
            (Elem t c a (take i ks ++ [Text A; Text B; Text C] ++
                         drop (S i) ks)) (doc w)) as Hdoc.
  { rewrite Hdoc2, Hdoc1, (set_set_node pp _ _ _ (doc w) Hn).
    rewrite Htake, Hdrop. by rewrite <- app_assoc. }
  exists w1, h1, w2. split_and!; try done.
  - by rewrite surround_run, Htag.
  - by rewrite surround_run, Htag1.
  - rewrite Hdoc. intros Heq.
    assert (get_node pp (doc w) =
            Some (Elem t c a (take i ks ++ [Text A; Text B; Text C] ++
                              drop (S i) ks))) as Hn'
      by (by rewrite <- Heq at 1; eapply get_set_node).
    rewrite Hn in Hn'. injection Hn' as Hks.
    apply (f_equal length) in Hks.
    rewrite <- (take_drop_middle ks i (Text dd) Hk) in Hks at 1.
    rewrite !length_app in Hks. simpl in Hks. lia.
  - eapply selected_single; [exact Hs2|]. rewrite Hr2. do 4 f_equal. simpl. lia.
Qed.

Lemma surround_twice_leaves_text_split_witness :
  ∃ w1 h1 w2,
    surround (Some 0) (Scenario.editing Scenario.page Scenario.word)
      = Ok tt w1 ∧
    head (sel_ranges w1) = Some h1 ∧
    surround (Some h1) w1 = Ok tt w2 ∧
    doc w2 =
      Elem "div" [] [] [Text "npm "; Text "init"; Text " command"] ∧
    doc w2 ≠ Scenario.page ∧
    selected w2 = Some (Range (Bp [] 1) (Bp [] 2)).
Proof.
  apply (surround_twice_leaves_text_split 0 [] 0 4 8 "div" [] []
           [Text "npm init command"] "npm init command"
           (Scenario.editing Scenario.page Scenario.word));
    first [reflexivity | vm_compute; lia].
Defined.

(** X7.  The other way round the document does come back.  With the
    selection inside a wrapper as [wrap] builds it (a [u] element with the
    one class and no other attribute) and no further underline element
    around it, a first [surround] unwraps it and a second one, called with
    the range the selection then holds, wraps the same nodes again: the
    document is exactly what it was, and the selection covers the wrapper's
    contents. *)
Theorem unwrap_then_wrap_restores_document h pp i tp cp ap kps ks l w :
  selection w = Some l →
  selection_tag tag CSS w = Some (InDoc (pp ++ [i])) →
  get_node pp (doc w) = Some (Elem tp cp ap kps) →
  kps !! i = Some (Elem "u" [CSS] [] ks) →
  find_up tag CSS pp (doc w) = None →
  ∃ w1 h1 w2,
    surround (Some h) w = Ok tt w1 ∧
    selection w1 = Some [h1] ∧
    selection_tag tag CSS w1 = None ∧
    surround (Some h1) w1 = Ok tt w2 ∧
    doc w2 = doc w ∧
    selected w2 =
      Some (Range (Bp (pp ++ [i]) 0) (Bp (pp ++ [i]) (length ks))).
Proof.
  intros Hsel Htag HP Hk Hup.
  assert (i < length kps) as Hi by (by eapply lookup_lt_Some).
  set (L := take i kps). set (R := drop (S i) kps).
  assert (length L = i) as HL by (unfold L; rewrite length_take; lia).
  destruct (unwrap_spec pp i tp cp ap kps "u" [CSS] [] ks
              (set_calls (calls w ++ [CallFindParentTag tag CSS]) w) HP Hk)
    as (w1 & Hrun1 & _ & _ & Hs1).
  simpl in Hs1. rewrite Hsel in Hs1. destruct Hs1 as (Hdoc1 & Hs1 & Hr1).
  fold L R in Hdoc1.
  set (h1 := length (ranges w)) in *.
  assert (get_node pp (doc w1) = Some (Elem tp cp ap (L ++ ks ++ R))) as HP1
    by (by rewrite Hdoc1; eapply get_set_node).
  assert (selection_tag tag CSS w1 = None) as Htag1.
  { erewrite selection_tag_selected by (by eapply selected_single).
    simpl. rewrite Hdoc1.
    by rewrite (find_up_set_node tag CSS pp _ _ _ HP), Hup. }
  set (wq := set_calls (calls w1 ++ [CallFindParentTag tag CSS]) w1).
  assert (ranges wq !! h1 =
          Some (Some (Range (Bp pp (length L)) (Bp pp (length L + length ks)))))
    as Hrq by (by rewrite HL).
  pose proof (extract_kids pp tp cp ap L ks R (doc wq) HP1) as Hex.
  set (d0 := set_node pp (Elem tp cp ap (L ++ R)) (doc wq)) in *.
  assert (get_node pp d0 = Some (Elem tp cp ap (L ++ R))) as HP0
    by (by eapply get_set_node).
  pose proof (insert_at_elem pp (length L) [Elem "u" ["cdx-underline"] [] ks]
                tp cp ap (L ++ R) d0 HP0) as Hins.
  rewrite take_app_length, drop_app_length in Hins.
  assert (L ++ [Elem "u" ["cdx-underline"] [] ks] ++ R = kps) as Hkps
    by (by apply take_drop_middle).
  rewrite Hkps in Hins.
  assert (set_node pp (Elem tp cp ap kps) d0 = doc w) as Hback.
  { unfold d0. rewrite (set_set_node pp _ _ _ _ HP1). simpl. rewrite Hdoc1.
    rewrite (set_set_node pp _ _ _ _ HP). by apply set_node_same. }
  rewrite Hback in Hins.
  destruct (wrap_run h1 _ d0 ks _ (doc w) pp (length L) wq Hrq Hex Hins)
    as (w2 & Hrun2 & Hdoc2 & _ & Hs2).
  { rewrite HL. by erewrite get_node_snoc by exact HP. }
  simpl in Hs2. rewrite Hs1, HL in Hs2.
  exists w1, h1, w2. split_and!; try done.
  - by rewrite surround_run, Htag.
  - by rewrite surround_run, Htag1.
Qed.

Lemma unwrap_then_wrap_restores_document_witness :
  find_up tag CSS [] Scenario.page_underlined = None ∧
  ∃ w1 h1 w2,
    surround (Some 0) (Scenario.editing Scenario.page_underlined Scenario.inside)
      = Ok tt w1 ∧
    selection w1 = Some [h1] ∧
    selection_tag tag CSS w1 = None ∧
    surround (Some h1) w1 = Ok tt w2 ∧
    doc w2 = Scenario.page_underlined ∧
    selected w2 = Some (Range (Bp [1] 0) (Bp [1] 1)).
Proof.
  split; [reflexivity|].
  apply (unwrap_then_wrap_restores_document 0 [] 1 "div" [] []
           [Text "npm "; Elem "u" ["cdx-underline"] [] [Text "init"];
            Text " command"] [Text "init"] [0]
           (Scenario.editing Scenario.page_underlined Scenario.inside));
    reflexivity.
Defined.

(** X8.  Any number of toggles.  From a document whose selection holds one
    valid range, the host may call [surround] with the selected range any
    number of times: every call returns, the text content of the document
    stays what it was, and the selection again holds one valid range. *)
Theorem toggle_times_keeps_text n h r w :
  selection w = Some [h] →
  ranges w !! h = Some (Some r) →
  valid_range (doc w) r = true →
  is_elem (doc w) = true →
  ∃ w' h' r',
    toggle_times n w = Ok tt w' ∧
    textContent (doc w') = textContent (doc w) ∧
    selection w' = Some [h'] ∧
    ranges w' !! h' = Some (Some r') ∧
    valid_range (doc w') r' = true.
Proof.
  revert h r w; induction n as [|n IH]; intros h r w Hsel Hr Hv Hd.
  - by exists w, h, r.
  - destruct (surround_ok h r w Hsel Hr Hv Hd)
      as (h1 & r1 & w1 & Hrun1 & Htext1 & Hsel1 & Hr1 & Hv1 & Hd1).
    destruct (IH h1 r1 w1 Hsel1 Hr1 Hv1 Hd1)
      as (w' & h' & r' & Hrun & Htext & Hrest).
    exists w', h', r'. split_and!; try tauto.
    + rewrite <- Hrun. apply toggle_times_S. by rewrite (toggle_run h).
    + by rewrite Htext.
Qed.

Lemma toggle_times_keeps_text_witness :
  valid_range Scenario.page_nested Scenario.inner = true ∧
  ∃ w' h' r',
    toggle_times 5 (Scenario.editing Scenario.page_nested Scenario.inner)
      = Ok tt w' ∧
    textContent (doc w') = "abc" ∧
    selection w' = Some [h'] ∧
    ranges w' !! h' = Some (Some r') ∧
    valid_range (doc w') r' = true.
Proof.
  split; [reflexivity|].
  apply (toggle_times_keeps_text 5 0 Scenario.inner
           (Scenario.editing Scenario.page_nested Scenario.inner));
    reflexivity.
Defined.

(** X9.  On and off.  When no underline element is around the selection at
    the start, the toggles alternate: after [n] of them the selection is
    underlined exactly when [n] is odd, and that is what [checkState] then
    returns. *)
Theorem toggle_times_parity n h r w :
  selection w = Some [h] →
  ranges w !! h = Some (Some r) →
  valid_range (doc w) r = true →
  is_elem (doc w) = true →
  selection_tag tag CSS w = None →
  ∃ w' w'',
    toggle_times n w = Ok tt w' ∧
    (is_Some (selection_tag tag CSS w') ↔ Nat.odd n = true) ∧
    checkState w' = Ok (Nat.odd n) w''.
Proof.
  intros Hsel Hr Hv Hd Htag.
  assert (plain w) as Hp by (by exists h, r).
  destruct (proj1 (toggle_times_alternates n w) Hp) as (w' & Hrun & _ & Hst).
  destruct (checkState_run w') as (w'' & Hc & _).
  exists w', w''. split; [done|].
  destruct (Nat.odd n).
  - pose proof (underlined_tag w' Hst) as Hs.
    rewrite bool_decide_eq_true_2 in Hc by done. by split.
  - pose proof (plain_tag w' Hst) as Hs. rewrite Hs in Hc |- *.
    split; [|done]. split; [by intros [? ?] | done].
Qed.

Lemma toggle_times_parity_witness :
  valid_range Scenario.page Scenario.word = true ∧
  ∃ w' w'',
    toggle_times 3 (Scenario.editing Scenario.page Scenario.word) = Ok tt w' ∧
    (is_Some (selection_tag tag CSS w') ↔ Nat.odd 3 = true) ∧
    checkState w' = Ok (Nat.odd 3) w''.
Proof.
  split; [reflexivity|].
  apply (toggle_times_parity 3 0 Scenario.word
           (Scenario.editing Scenario.page Scenario.word));
    reflexivity.
Defined.

(** X10.  The button.  On an instance as the constructor leaves it,
    [render] makes a button of type [button] with the toolbox icon as its
    content and the host's button class as its only class, and keeps it in
    the instance; the page is not touched.  A [checkState] after it adds the
    host's active class when the selection is underlined and leaves the
    class list alone when it is not. *)
Theorem render_then_checkState icon st w :
  this w = constructor st →
  inlineToolButton st ≠ inlineToolButtonActive st →
  ∃ b w1 w2,
    render icon w = Ok b w1 ∧
    b = Button "button" [inlineToolButton st] (toolboxIcon icon) ∧
    button (this w1) = Some b ∧
    doc w1 = doc w ∧ ranges w1 = ranges w ∧ selection w1 = selection w ∧
    checkState w1 = Ok (bool_decide (is_Some (selection_tag tag CSS w))) w2 ∧
    button (this w2) =
      Some (Button "button"
              (if bool_decide (is_Some (selection_tag tag CSS w))
               then [inlineToolButton st; inlineToolButtonActive st]
               else [inlineToolButton st])
              (toolboxIcon icon)).
Proof.
  intros Hthis Hne.
  set (b := Button "button" [inlineToolButton st] (toolboxIcon icon)).
  set (w1 := set_this {| button := Some b; iconClasses := iconClasses (this w) |}
               w).
  assert (render icon w = Ok b w1) as Hrun.
  { unfold render. erewrite bind_ok by reflexivity.
    erewrite bind_ok by reflexivity.
    unfold w1, b. by rewrite Hthis, classList_add_nil. }
  destruct (checkState_run w1) as (w2 & Hc & _).
  exists b, w1, w2. split_and!; try done.
  revert Hc. unfold checkState.
  rewrite (bind_ok _ _ _ _ _ (findParentTag_run tag CSS w1)).
  erewrite bind_ok by reflexivity.
  unfold button_toggle, modify, mbind, M_bind, mret, M_ret. simpl.
  intros [= <-]. simpl. rewrite Hthis. simpl. do 2 f_equal.
  change (selection_tag tag CSS w1) with (selection_tag tag CSS w).
  destruct (bool_decide (is_Some (selection_tag tag CSS w))); simpl.
  - unfold classList_add, classList_contains.
    rewrite bool_decide_eq_false_2; [done|].
    rewrite list_elem_of_singleton. congruence.
  - unfold classList_remove. by rewrite filter_cons, decide_True by done.
Qed.

Lemma render_then_checkState_witness :
  ∃ b w1 w2,
    render "<svg/>" (Scenario.editing Scenario.page_underlined Scenario.inside)
      = Ok b w1 ∧
    b = Button "button" ["ce-inline-tool"] "<svg/>" ∧
    button (this w1) = Some b ∧
    doc w1 = Scenario.page_underlined ∧
    ranges w1 = [Some Scenario.inside] ∧ selection w1 = Some [0] ∧
    checkState w1 = Ok true w2 ∧
    button (this w2) = Some Scenario.active_button.
Proof.
  apply (render_then_checkState "<svg/>" Scenario.api_styles
           (Scenario.editing Scenario.page_underlined Scenario.inside));
    [reflexivity | discriminate].
Defined.

(** X11.  [checkState] may be called again and again: a second call right
    after a first returns the same answer and leaves the button, like the
    page, as the first call left it. *)
Theorem checkState_twice w :
  ∃ b w1 w2,
    checkState w = Ok b w1 ∧
    checkState w1 = Ok b w2 ∧
    this w2 = this w1 ∧
    doc w2 = doc w ∧ ranges w2 = ranges w ∧ selection w2 = selection w.
Proof.
  eexists _, _, _. split.
  { unfold checkState.
    erewrite bind_ok by apply findParentTag_run.
    erewrite bind_ok by reflexivity.
    erewrite bind_ok by reflexivity. reflexivity. }
  split.
  { unfold checkState.
    erewrite bind_ok by apply findParentTag_run.
    erewrite bind_ok by reflexivity.
    erewrite bind_ok by reflexivity.
    unfold mret, M_ret. f_equal.
    simpl. by destruct (button (this w)). }
  simpl. destruct (button (this w)) as [b0|] eqn:Hb; simpl; rewrite ?Hb;
    simpl; split_and!; try done.
  by rewrite classList_toggle_toggle.
Qed.

(** X12.  [surround], and with it [wrap] and [unwrap], works on the page
    only: whatever range it is given and whether it returns or throws, the
    button and the icon classes of the instance are the same object and the
    same values afterwards. *)
Theorem surround_keeps_instance range :
  keeps_this (surround range) ∧
  (∀ h, keeps_this (wrap h)) ∧ (∀ e, keeps_this (unwrap e)).
Proof.
  split_and!; [|apply keeps_this_wrap|apply keeps_this_unwrap].
  destruct range as [h|]; [|apply keeps_this_ret].
  unfold surround.
  apply keeps_this_bind; [apply keeps_this_findParentTag|].
  intros [e|]; [apply keeps_this_unwrap|apply keeps_this_wrap].
Qed.

(** X13.  What [wrap] puts into the document is what [sanitize] lets
    through: in the sanitized document the wrapper is still a [u] element
    with the one class and no other attribute, around the sanitized
    contents. *)
Theorem wrapped_markup_passes_sanitizer h r w :
  ranges w !! h = Some (Some r) →
  valid_range (doc w) r = true →
  is_elem (doc w) = true →
  ∃ u f w1,
    wrap h w = Ok tt w1 ∧
    get_node u (doc w1) = Some (Elem "u" [CSS] [] f) ∧
    get_node u (clean sanitize (doc w1)) =
      Some (Elem "u" [CSS] [] (map (clean sanitize) f)).
Proof.
  intros Hr Hv Hd.
  destruct (wrap_then_unwrap h r w Hr Hv Hd)
    as (pp & i & P & t & cl & a & L & R & f & w1 & Hrun1 & _ & _ & _ & _ & _
        & _ & Hu & _).
  exists (pp ++ [i]), f, w1. split_and!; try done.
  by rewrite get_node_clean, Hu.
Qed.

Lemma wrapped_markup_passes_sanitizer_witness :
  valid_range Scenario.page Scenario.word = true ∧
  ∃ u f w1,
    wrap 0 (Scenario.editing Scenario.page Scenario.word) = Ok tt w1 ∧
    get_node u (doc w1) = Some (Elem "u" [CSS] [] f) ∧
    get_node u (clean sanitize (doc w1)) =
      Some (Elem "u" [CSS] [] (map (clean sanitize) f)).
Proof.
  split; [reflexivity|].
  apply (wrapped_markup_passes_sanitizer 0 Scenario.word
           (Scenario.editing Scenario.page Scenario.word));
    reflexivity.
Defined.

(** X14.  A caret.  [wrap] does not look whether its range is collapsed: for
    a collapsed range it extracts nothing and inserts a wrapper without
    children at the caret.  In an element the wrapper becomes the child at
    the caret's offset; in a text node the text is split at the caret's
    offset and the wrapper stands between the two parts.  So the text before
    the wrapper is the text before the caret and the text after it the text
    after the caret; the text of the document is unchanged, and the
    selection is collapsed inside the empty wrapper. *)
Theorem wrap_collapsed_inserts_empty_wrapper h b l w :
  ranges w !! h = Some (Some (Range b b)) →
  selection w = Some l →
  valid_bp (doc w) b = true →
  is_elem (doc w) = true →
  ∃ u w1,
    wrap h w = Ok tt w1 ∧
    get_node u (doc w1) = Some (Elem "u" [CSS] [] []) ∧
    textContent (doc w1) = textContent (doc w) ∧
    selected w1 = Some (Range (Bp u 0) (Bp u 0)) ∧
    text_before u 0 (doc w1) = text_before (bnode b) (boff b) (doc w) ∧
    text_after u 0 (doc w1) = text_after (bnode b) (boff b) (doc w) ∧
    match get_node (bnode b) (doc w) with
    | Some (Elem t c a ks) =>
        u = bnode b ++ [boff b] ∧
        doc w1 =
          set_node (bnode b)
            (Elem t c a
               (take (boff b) ks ++ [Elem "u" [CSS] [] []] ++
                drop (boff b) ks)) (doc w)
    | Some (Text dd) =>
        ∃ pp i t c a ks,
          bnode b = pp ++ [i] ∧
          get_node pp (doc w) = Some (Elem t c a ks) ∧
          u = pp ++ [S i] ∧
          doc w1 =
            set_node pp
              (Elem t c a
                 (take i ks ++
                  [Text (Str.stake (boff b) dd);
                   Elem "u" [CSS] [] [];
                   Text (Str.sdrop (boff b) dd)] ++
                  drop (S i) ks)) (doc w)
    | None => False
    end.
Proof.
  intros Hr Hsel Hb Hd.
  assert (valid_range (doc w) (Range b b) = true) as Hv.
  { unfold valid_range. simpl. rewrite Hb. simpl.
    unfold bp_le. generalize (bnode b ++ [boff b]).
    intros s. induction s as [|x s IH]; simpl; [done|].
    by rewrite decide_True. }
  destruct (wrap_caret h b w Hr Hb Hd) as (u & w1 & Hrun & Hs & Htree).
  rewrite Hsel in Hs.
  destruct (wrap_spec h _ w Hr Hv Hd)
    as (pp & i & P & t & cl & a & L & R & f & d0 & np & w1' & Hrun' & Hex & HP
        & HlP & _ & Hdoc & Hi & HL & HR & _ & _ & Hs').
  rewrite Hrun in Hrun'. injection Hrun' as <-.
  destruct (wrap_text h _ w Hr Hv Hd) as (w1' & Hrun' & Htext).
  rewrite Hrun in Hrun'. injection Hrun' as <-.
  unfold extract, collapsed in Hex. simpl in Hex.
  rewrite bool_decide_eq_true_2 in Hex by done.
  injection Hex as _ <- _.
  rewrite Hsel in Hs'. destruct Hs' as [Hs1 Hr1].
  rewrite (selected_single _ _ _ Hs1 Hr1) in Hs. simpl in Hs.
  injection Hs as Hu. subst u.
  simpl in HL, HR.
  set (U := Elem "u" ["cdx-underline"] [] []) in *.
  assert (get_node pp (doc w1) = Some (Elem t cl a (L ++ [U] ++ R))) as HP'
    by (by rewrite Hdoc; eapply get_set_node).
  assert ((L ++ [U] ++ R) !! i = Some U) as Hk by (by apply list_lookup_middle).
  assert (get_node (pp ++ [i]) (doc w1) = Some U) as HU
    by (by erewrite get_node_snoc by exact HP').
  exists (pp ++ [i]), w1. split_and!; try done.
  - by eapply selected_single.
  - rewrite (text_before_node _ _ _ _ HU), (left_of_snoc pp i _ U _ HP' Hk).
    simpl. rewrite take_app_length' by done.
    rewrite Hdoc, (left_of_set_node pp P _ _ HP), ?take_0, ?texts_nil.
    by rewrite StrFacts.app_nil_r.
  - rewrite (text_after_node _ _ _ _ HU), (right_of_snoc pp i _ U _ HP' Hk).
    simpl. rewrite ?drop_0, ?texts_nil.
    replace (L ++ U :: R) with ((L ++ [U]) ++ R) by (by rewrite <- app_assoc).
    rewrite drop_app_length' by (rewrite length_app; simpl; lia).
    by rewrite Hdoc, (right_of_set_node pp P _ _ HP).
Qed.

Lemma wrap_collapsed_inserts_empty_wrapper_witness :
  valid_bp Scenario.page (Bp [0] 4) = true ∧
  ∃ u w1,
    wrap 0 (Scenario.editing Scenario.page Scenario.caret) = Ok tt w1 ∧
    get_node u (doc w1) = Some (Elem "u" [CSS] [] []) ∧
    textContent (doc w1) = "npm init command" ∧
    selected w1 = Some (Range (Bp u 0) (Bp u 0)) ∧
    text_before u 0 (doc w1) = "npm " ∧
    text_after u 0 (doc w1) = "init command" ∧
    ∃ pp i t c a ks,
      [0] = pp ++ [i] ∧
      get_node pp Scenario.page = Some (Elem t c a ks) ∧
      u = pp ++ [S i] ∧
      doc w1 =
        set_node pp
          (Elem t c a
             (take i ks ++
              [Text "npm "; Elem "u" [CSS] [] []; Text "init command"] ++
              drop (S i) ks)) Scenario.page.
Proof.
  split; [reflexivity|].
  apply (wrap_collapsed_inserts_empty_wrapper 0 (Bp [0] 4) [0]
           (Scenario.editing Scenario.page Scenario.caret));
    reflexivity.
Defined.

(** X15.  A range over whole children of one element, from child [i] up to
    child [j]: [wrap] puts exactly these children, in their order, into the
    wrapper, and the wrapper takes their place as child [i]. *)
Theorem wrap_wraps_children h pp i j t c a ks l w :
  ranges w !! h = Some (Some (Range (Bp pp i) (Bp pp j))) →
  selection w = Some l →
  get_node pp (doc w) = Some (Elem t c a ks) →
  i ≤ j → j ≤ length ks →
  ∃ w1,
    wrap h w = Ok tt w1 ∧
    doc w1 =
      set_node pp
        (Elem t c a
           (take i ks ++ [Elem "u" [CSS] [] (take (j - i) (drop i ks))] ++
            drop j ks)) (doc w) ∧
    selected w1 = Some (Range (Bp (pp ++ [i]) 0) (Bp (pp ++ [i]) (j - i))).
Proof.
  intros Hr Hsel Hn Hij Hj.
  set (L := take i ks). set (mid := take (j - i) (drop i ks)).
  set (R := drop j ks).
  assert (length L = i) as HL by (unfold L; rewrite length_take; lia).
  assert (length mid = j - i) as Hmid
    by (unfold mid; rewrite length_take, length_drop; lia).
  assert (ks = L ++ mid ++ R) as Hks.
  { unfold L, mid, R. rewrite <- (take_drop i ks) at 1. f_equal.
    rewrite <- (take_drop (j - i) (drop i ks)) at 1. f_equal.
    rewrite drop_drop. f_equal. lia. }
  rewrite Hks in Hn.
  assert (ranges w !! h =
          Some (Some (Range (Bp pp (length L)) (Bp pp (length L + length mid)))))
    as Hr' by (rewrite HL, Hmid; by replace (i + (j - i)) with j by lia).
  pose proof (extract_kids pp t c a L mid R (doc w) Hn) as Hex.
  set (d0 := set_node pp (Elem t c a (L ++ R)) (doc w)) in *.
  assert (get_node pp d0 = Some (Elem t c a (L ++ R))) as Hn0
    by (by eapply get_set_node).
  pose proof (insert_at_elem pp (length L) [Elem "u" ["cdx-underline"] [] mid]
                t c a (L ++ R) d0 Hn0) as Hins.
  rewrite take_app_length, drop_app_length in Hins.
  unfold d0 in Hins at 2. rewrite (set_set_node pp _ _ _ _ Hn) in Hins.
  destruct (wrap_run h _ d0 mid _ _ pp (length L) w Hr' Hex Hins)
    as (w1 & Hrun & Hdoc & _ & Hs).
  { erewrite get_node_snoc by (by eapply get_set_node). simpl.
    by apply list_lookup_middle. }
  rewrite Hsel, HL, Hmid in Hs.
  by exists w1.
Qed.

Lemma wrap_wraps_children_witness :
  ∃ w1,
    wrap 0 (Scenario.editing Scenario.page_underlined
              (Range (Bp [] 1) (Bp [] 3))) = Ok tt w1 ∧
    doc w1 =
      Elem "div" [] []
        [Text "npm ";
         Elem "u" ["cdx-underline"] []
           [Elem "u" ["cdx-underline"] [] [Text "init"]; Text " command"]] ∧
    selected w1 = Some (Range (Bp [1] 0) (Bp [1] 2)).
Proof.
  apply (wrap_wraps_children 0 [] 1 3 "div" [] []
           [Text "npm "; Elem "u" ["cdx-underline"] [] [Text "init"];
            Text " command"] [0]
           (Scenario.editing Scenario.page_underlined
              (Range (Bp [] 1) (Bp [] 3))));
    first [reflexivity | vm_compute; lia].
Defined.
